(** * mapillary-js: navigation graph and asset cache

    A shallow embedding of the class [Node] ([src/graph/Node.ts]), of the
    class [Spatial], of the key handlers of [KeyboardComponent], of the
    rendering of [NavigationComponent], of the vertex operations of
    [PolygonGeometry] and of the options of [OutlineTag], with the
    properties of the specification, and further properties of the code,
    proved over it.

    The embedding comes first:
    - [Number]: the numbers of the edge selection are IEEE binary64 values,
      modelled by the primitive floats;
    - [Js]: references that may be [undefined] or [null], and calls that may
      throw;
    - [Edge], [Graph]: the interfaces that [Node] and the handlers read;
    - [Node]: the class, its getters, and [cacheImage], [cacheMesh] and
      [cacheAssets] as a state machine over browser events, with the part of
      RxJS they rely on ([Subscriber], [combineLatest]);
    - [Keyboard]: [_navigatePanorama], [_navigatePerspective] and [_moveDir];
    - [Spatial]: [rotationMatrix], [rotate], [opticalCenter] and
      [viewingDirection] over the real numbers;
    - [Navigation]: the buttons that [NavigationComponent] renders for a
      node;
    - [Polygon]: the constructor of [PolygonGeometry], [addVertex2d],
      [removeVertex2d] and [setVertex2d], over binary64 coordinates;
    - [OutlineTag]: the constructor and [setOptions].

    The properties follow, in [NumberFacts], [KeyboardFacts], [NodeFacts]
    and [SpatialFacts] for the specification, and in [SpatialCamera],
    [KeyboardHandlers], [NodeCache], [NavigationFacts], [PolygonFacts] and
    [OutlineTagFacts] for the rest of the code. *)

From Stdlib Require Import Bool List ZArith NArith Lia String.
From Stdlib Require Import Floats Reals Lra RNsatz.
Import ListNotations.

(** ** JavaScript numbers *)

Module Number.

Local Open Scope float_scope.

(** [Math.PI] is the binary64 value closest to pi. *)
Definition Math_PI : float := 0x1.921fb54442d18p+1.

(** [Number.MAX_VALUE], the largest finite binary64 value. *)
Definition MAX_VALUE : float := 0x1.fffffffffffffp+1023.

(** [-0] is the zero whose inverse is [-Infinity]. *)
Definition is_neg_zero (a : float) : bool := (a =? 0) && (1 / a <? 0).

(** [Math.min(a, b)]: [NaN] as soon as one argument is [NaN], otherwise the
    smaller argument, [-0] counting as smaller than [+0]. *)
Definition Math_min (a b : float) : float :=
  if is_nan a || is_nan b then nan
  else if a <? b then a
  else if b <? a then b
  else if is_neg_zero a then a else b.

Definition Math_abs (a : float) : float := abs a.

End Number.

(** ** JavaScript references and abrupt completion *)

Module Js.

(** A reference of the language is [undefined], [null] or an object. *)
Inductive Ref (A : Type) : Type :=
| undefined : Ref A
| null : Ref A
| obj (a : A) : Ref A.

Arguments undefined {A}.
Arguments null {A}.
Arguments obj {A} a.

(** A call returns a value or throws; the only exception the modelled code
    can raise by itself is the [TypeError] of a property access on [null] or
    [undefined]. *)
Inductive Exception : Type := TypeError.

Inductive Result (A : Type) : Type :=
| Return (a : A) : Result A
| Throw (e : Exception) : Result A.

Arguments Return {A} a.
Arguments Throw {A} e.

End Js.

(** ** Edges *)

Module Edge.

(** Modelled from the spec: the enumeration [EdgeDirection] is declared in
    [../Edge], which is not part of the sources; section 3 of the
    specification lists its members. *)
Inductive EdgeDirection : Type :=
| StepForward | StepBackward | StepLeft | StepRight
| TurnLeft | TurnRight | TurnU
| Pano | Next | Prev.

(** [d1 === d2] on enumeration members. *)
Definition EdgeDirection_eqb (d1 d2 : EdgeDirection) : bool :=
  match d1, d2 with
  | StepForward, StepForward | StepBackward, StepBackward
  | StepLeft, StepLeft | StepRight, StepRight
  | TurnLeft, TurnLeft | TurnRight, TurnRight | TurnU, TurnU
  | Pano, Pano | Next, Next | Prev, Prev => true
  | _, _ => false
  end.

(** The fields of [IEdge] that the sources read: [edge.to],
    [edge.data.direction] and [edge.data.worldMotionAzimuth]. *)
Record IEdgeData : Type := {
  direction : EdgeDirection;
  worldMotionAzimuth : float
}.

Record IEdge : Type := {
  to : string;
  data : IEdgeData
}.

End Edge.

(** ** Graph: the interfaces the Node class works with *)

Module Graph.

Record ILatLon : Type := { lat : float; lon : float }.

(** The panorama metadata read by [pano] and [fullPano]; a field that is
    absent ([undefined]) is [None]. *)
Record IGPano : Type := {
  CroppedAreaLeftPixels : option Z;
  CroppedAreaTopPixels : option Z;
  CroppedAreaImageWidthPixels : option Z;
  CroppedAreaImageHeightPixels : option Z;
  FullPanoWidthPixels : option Z;
  FullPanoHeightPixels : option Z
}.

(** The fields of [IAPINavImIm] that [Node] reads. *)
Record IAPINavImIm : Type := {
  api_key : string;
  api_user : string;
  captured_at : Z;
  merge_version : option Z;
  gpano : option IGPano
}.

(** Modelled from the spec: the class [Sequence] is declared in [../Graph],
    which is not part of the sources. Section 3 of the specification: an
    ordered sequence of node keys with successor and predecessor lookup,
    [null] at the boundaries and for an absent key. *)
Record Sequence : Type := { keys : list string }.

Fixpoint nextKey (ks : list string) (k : string) : option string :=
  match ks with
  | k1 :: rest =>
      if String.eqb k1 k then
        match rest with k2 :: _ => Some k2 | [] => None end
      else nextKey rest k
  | [] => None
  end.

Fixpoint prevKey (ks : list string) (k : string) : option string :=
  match ks with
  | k1 :: rest =>
      match rest with
      | k2 :: _ => if String.eqb k2 k then Some k1 else prevKey rest k
      | [] => None
      end
  | [] => None
  end.

Definition findNextKey (s : Sequence) (k : string) : option string :=
  nextKey (keys s) k.

Definition findPrevKey (s : Sequence) (k : string) : option string :=
  prevKey (keys s) k.

Record IMesh : Type := { faces : list Z; vertices : list float }.

Record ILoadStatus : Type := { loaded : N; total : N }.

(** The image element built by [cacheImage]: [crossOrigin] and the blob its
    [src] points to. *)
Record HTMLImageElement : Type := {
  crossOrigin : string;
  src : list Byte.byte
}.

End Graph.

(** ** Node *)

Module Node.

Import Js Edge Graph.

Local Open Scope string_scope.
Local Open Scope N_scope.

(** The object of the class. [apiNavImIm] is private, assigned by the
    constructor only, and the constructor dereferences it ([apiNavImIm.key]):
    it is an object in every constructed node. [image], [mesh] and [edges]
    are [null] until assigned. Byte counts and timestamps are integers. *)
Record Node : Type := {
  worthy : bool;
  cached : bool;
  lastCacheEvict : Z;
  lastUsed : Z;
  _apiNavImIm : IAPINavImIm;
  _key : string;
  _ca : float;
  _latLon : ILatLon;
  _sequence : Ref Sequence;
  _hs : list string;
  _image : option HTMLImageElement;
  _mesh : option IMesh;
  _edges : option (list IEdge);
  _loadStatus : ILoadStatus
}.

(** [new Node(ca, latLon, worthy, sequence, apiNavImIm, hs)], at the time
    [now] that [new Date().getTime()] returns. *)
Definition new_Node (ca : float) (latLon : ILatLon) (worthy0 : bool)
    (sequence : Ref Sequence) (apiNavImIm : Ref IAPINavImIm)
    (hs : list string) (now : Z) : Result Node :=
  match apiNavImIm with
  | obj api =>
      Return {|
        _apiNavImIm := api;
        _key := api_key api;
        _ca := ca;
        _latLon := latLon;
        _sequence := sequence;
        _hs := hs;
        _image := None;
        _mesh := None;
        _edges := None;
        worthy := worthy0;
        cached := false;
        lastCacheEvict := 0;
        lastUsed := now;
        _loadStatus := {| Graph.loaded := 0; total := 100 |}
      |}
  | _ => Throw TypeError
  end.

(** *** Getters *)

Definition apiNavImIm (n : Node) : IAPINavImIm := _apiNavImIm n.
Definition user (n : Node) : string := api_user (_apiNavImIm n).
Definition capturedAt (n : Node) : Z := captured_at (_apiNavImIm n).
Definition key (n : Node) : string := _key n.
Definition ca (n : Node) : float := _ca n.
Definition latLon (n : Node) : ILatLon := _latLon n.
Definition sequence (n : Node) : Ref Sequence := _sequence n.
Definition hs (n : Node) : list string := _hs n.
Definition image (n : Node) : option HTMLImageElement := _image n.
Definition mesh (n : Node) : option IMesh := _mesh n.
Definition edges (n : Node) : option (list IEdge) := _edges n.
Definition loadStatus (n : Node) : ILoadStatus := _loadStatus n.

(** [x != null] on a nullable value. *)
Definition not_null {A : Type} (x : option A) : bool :=
  match x with Some _ => true | None => false end.

(** [a === b] on numbers that may be [undefined]. *)
Definition strict_eq (a b : option Z) : bool :=
  match a, b with
  | Some x, Some y => Z.eqb x y
  | None, None => true
  | _, _ => false
  end.

Definition set_edges (n : Node) (value : list IEdge) : Node :=
  {| worthy := worthy n; cached := cached n;
     lastCacheEvict := lastCacheEvict n; lastUsed := lastUsed n;
     _apiNavImIm := _apiNavImIm n; _key := _key n; _ca := _ca n;
     _latLon := _latLon n; _sequence := _sequence n; _hs := _hs n;
     _image := _image n; _mesh := _mesh n; _edges := Some value;
     _loadStatus := _loadStatus n |}.

(** The public field [cached], written by the caller of [cacheAssets]. *)
Definition set_cached (n : Node) (value : bool) : Node :=
  {| worthy := worthy n; cached := value;
     lastCacheEvict := lastCacheEvict n; lastUsed := lastUsed n;
     _apiNavImIm := _apiNavImIm n; _key := _key n; _ca := _ca n;
     _latLon := _latLon n; _sequence := _sequence n; _hs := _hs n;
     _image := _image n; _mesh := _mesh n; _edges := _edges n;
     _loadStatus := _loadStatus n |}.

Definition loaded (n : Node) : bool :=
  cached n && not_null (_image n).

(** The first conjunct of the source, [this.apiNavImIm != null], holds of
    every constructed node. *)
Definition merged (n : Node) : bool :=
  true
  && not_null (merge_version (apiNavImIm n))
  && match merge_version (apiNavImIm n) with
     | Some v => (v >? 0)%Z
     | None => false
     end.

Definition pano (n : Node) : bool :=
  match gpano (apiNavImIm n) with
  | Some g => not_null (FullPanoWidthPixels g)
  | None => false
  end.

Definition fullPano (n : Node) : bool :=
  match gpano (apiNavImIm n) with
  | Some g =>
      strict_eq (CroppedAreaLeftPixels g) (Some 0%Z)
      && strict_eq (CroppedAreaTopPixels g) (Some 0%Z)
      && strict_eq (CroppedAreaImageWidthPixels g) (FullPanoWidthPixels g)
      && strict_eq (CroppedAreaImageHeightPixels g) (FullPanoHeightPixels g)
  | None => false
  end.

(** *** Sequence navigation

    The guard is [this.sequence === undefined]: a [null] sequence passes it
    and the call on it throws. The returned [None] is [null]. *)

Definition findNextKeyInSequence (n : Node) : Result (option string) :=
  match sequence n with
  | undefined => Return None
  | null => Throw TypeError
  | obj s => Return (findNextKey s (key n))
  end.

Definition findPrevKeyInSequence (n : Node) : Result (option string) :=
  match sequence n with
  | undefined => Return None
  | null => Throw TypeError
  | obj s => Return (findPrevKey s (key n))
  end.

(** *** The projection of [cacheAssets] *)

(** [ILoadStatusObject] of the source: the field [loaded] is [lso_loaded]
    here, and [object] is [None] for [null]. *)
Record ILoadStatusObject (A : Type) : Type := {
  lso_loaded : ILoadStatus;
  object : option A
}.

Arguments lso_loaded {A} _.
Arguments object {A} _.

Definition with_loadStatus (n : Node) (ls : ILoadStatus) : Node :=
  {| worthy := worthy n; cached := cached n;
     lastCacheEvict := lastCacheEvict n; lastUsed := lastUsed n;
     _apiNavImIm := _apiNavImIm n; _key := _key n; _ca := _ca n;
     _latLon := _latLon n; _sequence := _sequence n; _hs := _hs n;
     _image := _image n; _mesh := _mesh n; _edges := _edges n;
     _loadStatus := ls |}.

Definition with_mesh (n : Node) (m : option IMesh) : Node :=
  {| worthy := worthy n; cached := cached n;
     lastCacheEvict := lastCacheEvict n; lastUsed := lastUsed n;
     _apiNavImIm := _apiNavImIm n; _key := _key n; _ca := _ca n;
     _latLon := _latLon n; _sequence := _sequence n; _hs := _hs n;
     _image := _image n; _mesh := m; _edges := _edges n;
     _loadStatus := _loadStatus n |}.

Definition with_image (n : Node) (i : option HTMLImageElement) : Node :=
  {| worthy := worthy n; cached := cached n;
     lastCacheEvict := lastCacheEvict n; lastUsed := lastUsed n;
     _apiNavImIm := _apiNavImIm n; _key := _key n; _ca := _ca n;
     _latLon := _latLon n; _sequence := _sequence n; _hs := _hs n;
     _image := i; _mesh := _mesh n; _edges := _edges n;
     _loadStatus := _loadStatus n |}.

(** [ls.loaded += d.loaded; ls.total += d.total]. *)
Definition add_loadStatus (ls d : ILoadStatus) : ILoadStatus :=
  {| Graph.loaded := Graph.loaded ls + Graph.loaded d;
     total := total ls + total d |}.

(** The function given to [combineLatest]; it mutates the node and returns
    it. An argument that is not truthy is [None]. *)
Definition project (n : Node)
    (image : option (ILoadStatusObject HTMLImageElement))
    (mesh : option (ILoadStatusObject IMesh)) : Node :=
  let n0 := with_loadStatus n {| Graph.loaded := 0; total := 0 |} in
  let n1 :=
    match mesh with
    | Some m =>
        let n' := with_mesh n0 (object m) in
        with_loadStatus n' (add_loadStatus (_loadStatus n') (lso_loaded m))
    | None => n0
    end in
  match image with
  | Some i =>
      let n' := with_image n1 (object i) in
      with_loadStatus n' (add_loadStatus (_loadStatus n') (lso_loaded i))
  | None => n1
  end.

(** *** Observables

    What an observable sends to a subscriber. The error value of the source
    is the DOM event passed to [img.onerror]. *)

Record DomEvent : Type := { event_type : string }.

Inductive Notification (A : Type) : Type :=
| next (value : A) : Notification A
| error (err : DomEvent) : Notification A
| complete : Notification A.

Arguments next {A} value.
Arguments error {A} err.
Arguments complete {A}.

(** RxJS [Subscriber]: the calls [next], [error] and [complete] made on a
    subscriber reach its destination until the first [error] or [complete],
    which sets [isStopped]; later calls are dropped. The result is the new
    [isStopped] and the calls passed on. *)
Fixpoint Subscriber_calls {A : Type} (isStopped : bool)
    (calls : list (Notification A)) : bool * list (Notification A) :=
  match calls with
  | [] => (isStopped, [])
  | c :: rest =>
      if isStopped then (true, [])
      else match c with
           | next _ =>
               let (s, passed) := Subscriber_calls false rest in
               (s, c :: passed)
           | _ => (true, [c])
           end
  end.

(** *** The browser

    The requests that are opened and sent, and the events the browser may
    raise on the two [XMLHttpRequest] objects and on the image element.
    [Urls] and [Settings] are not part of the sources: a URL is the call
    that builds it, an image size the setting it is read from. *)

Inductive ImageSize : Type := basePanoramaSize | baseImageSize.

Inductive Url : Type :=
| Urls_image (key : string) (size : ImageSize)
| Urls_proto_mesh (key : string).

Record Request : Type := { method : string; url : Url }.

Record ProgressEvent : Type := { e_loaded : N; e_total : N }.

Inductive BrowserEvent : Type :=
| image_xhr_onprogress (e : ProgressEvent)
| image_xhr_onload (e : ProgressEvent) (response : list Byte.byte)
| image_xhr_onerror
| img_onload
| img_onerror (err : DomEvent)
| mesh_xhr_onprogress (e : ProgressEvent)
| mesh_xhr_onload (status : N) (e : ProgressEvent)
    (response : list Byte.byte)
| mesh_xhr_onerror.

Definition status_of (e : ProgressEvent) : ILoadStatus :=
  {| Graph.loaded := e_loaded e; total := e_total e |}.

(** The mesh literal [{ faces: [], vertices: [] }]. *)
Definition empty_mesh : IMesh := {| faces := []; vertices := [] |}.

(** *** cacheImage, cacheMesh and cacheAssets *)

Section Cache.

(** [MeshReader.read] is declared in [../Graph], which is not part of the
    sources: the decoder is a parameter, and it may throw. *)
Variable MeshReader_read : list Byte.byte -> Result IMesh.

(** The closure of a [cacheImage] subscription: the image element, the load
    event [e] captured by [img.onload] once [xmlHTTP.onload] has installed
    the handlers of the element, and [isStopped] of the subscriber. *)
Record ImageSub : Type := {
  img : HTMLImageElement;
  img_handlers : option ProgressEvent;
  image_isStopped : bool
}.

(** The closure of a [cacheMesh] subscription: whether a request exists, and
    [isStopped] of the subscriber. *)
Record MeshSub : Type := {
  mesh_xhr : bool;
  mesh_isStopped : bool
}.

Definition cacheImage_subscribe (n : Node) : ImageSub * list Request :=
  ({| img := {| crossOrigin := "Anonymous"; src := [] |};
      img_handlers := None;
      image_isStopped := false |},
   [{| method := "GET";
       url := Urls_image (key n)
                (if fullPano n then basePanoramaSize else baseImageSize) |}]).

(** The calls made on the subscriber of [cacheImage] by the handlers that
    the source installs. No handler is installed for [xmlHTTP.onerror]. *)
Definition cacheImage_event (s : ImageSub) (ev : BrowserEvent)
    : ImageSub * list (Notification (ILoadStatusObject HTMLImageElement)) :=
  match ev with
  | image_xhr_onprogress e =>
      (s, [next {| lso_loaded := status_of e; object := None |}])
  | image_xhr_onload e response =>
      ({| img := {| crossOrigin := crossOrigin (img s); src := response |};
          img_handlers := Some e;
          image_isStopped := image_isStopped s |}, [])
  | img_onload =>
      match img_handlers s with
      | Some e =>
          (s, [next {| lso_loaded := status_of e; object := Some (img s) |};
               complete])
      | None => (s, [])
      end
  | img_onerror err =>
      match img_handlers s with
      | Some _ => (s, [error err])
      | None => (s, [])
      end
  | _ => (s, [])
  end.

(** Subscribing to [cacheMesh()]: the closure, the requests sent and the
    calls made on the subscriber before the subscription returns. *)
Definition cacheMesh_subscribe (n : Node)
    : MeshSub * list Request * list (Notification (ILoadStatusObject IMesh)) :=
  if negb (merged n) then
    ({| mesh_xhr := false; mesh_isStopped := false |},
     [],
     [next {| lso_loaded := {| Graph.loaded := 0; total := 0 |};
              object := Some empty_mesh |};
      complete])
  else
    ({| mesh_xhr := true; mesh_isStopped := false |},
     [{| method := "GET"; url := Urls_proto_mesh (key n) |}],
     []).

(** The calls made on the subscriber of [cacheMesh] by the handlers of its
    request. An exception of the decoder leaves [xmlHTTP.onload] before any
    call; no handler is installed for [xmlHTTP.onerror]. *)
Definition cacheMesh_event (s : MeshSub) (ev : BrowserEvent)
    : list (Notification (ILoadStatusObject IMesh)) :=
  if mesh_xhr s then
    match ev with
    | mesh_xhr_onprogress e =>
        [next {| lso_loaded := status_of e; object := None |}]
    | mesh_xhr_onload status e response =>
        match (if (status =? 200)%N then MeshReader_read response
               else Return empty_mesh) with
        | Return mesh =>
            [next {| lso_loaded := status_of e; object := Some mesh |};
             complete]
        | Throw _ => []
        end
    | _ => []
    end
  else [].

(** RxJS [combineLatest] with a projection: the latest value of each source
    ([values]), the number of sources that have not completed ([active]),
    and the destination. [closed] is set once the destination has been sent
    [error] or [complete]; [out] lists what the subscriber of
    [cacheAssets()] has been sent, oldest first. The value sent is the node
    itself: [out] records the node as it is when it is sent. *)
Record Combined : Type := {
  node : Node;
  latest_image : option (ILoadStatusObject HTMLImageElement);
  latest_mesh : option (ILoadStatusObject IMesh);
  active : nat;
  closed : bool;
  out : list (Notification Node)
}.

Definition notifyNext_image (c : Combined)
    (v : ILoadStatusObject HTMLImageElement) : Combined :=
  match latest_mesh c with
  | Some m =>
      let n' := project (node c) (Some v) (Some m) in
      {| node := n'; latest_image := Some v; latest_mesh := Some m;
         active := active c; closed := closed c;
         out := out c ++ [next n'] |}
  | None =>
      {| node := node c; latest_image := Some v; latest_mesh := None;
         active := active c; closed := closed c; out := out c |}
  end.

Definition notifyNext_mesh (c : Combined)
    (v : ILoadStatusObject IMesh) : Combined :=
  match latest_image c with
  | Some i =>
      let n' := project (node c) (Some i) (Some v) in
      {| node := n'; latest_image := Some i; latest_mesh := Some v;
         active := active c; closed := closed c;
         out := out c ++ [next n'] |}
  | None =>
      {| node := node c; latest_image := None; latest_mesh := Some v;
         active := active c; closed := closed c; out := out c |}
  end.

Definition notifyComplete (c : Combined) : Combined :=
  let a := (active c - 1)%nat in
  if Nat.eqb a 0 then
    {| node := node c; latest_image := latest_image c;
       latest_mesh := latest_mesh c; active := a; closed := true;
       out := out c ++ [complete] |}
  else
    {| node := node c; latest_image := latest_image c;
       latest_mesh := latest_mesh c; active := a; closed := closed c;
       out := out c |}.

Definition notifyError (c : Combined) (err : DomEvent) : Combined :=
  {| node := node c; latest_image := latest_image c;
     latest_mesh := latest_mesh c; active := active c; closed := true;
     out := out c ++ [error err] |}.

Definition deliver_image (c : Combined)
    (x : Notification (ILoadStatusObject HTMLImageElement)) : Combined :=
  if closed c then c
  else match x with
       | next v => notifyNext_image c v
       | error err => notifyError c err
       | complete => notifyComplete c
       end.

Definition deliver_mesh (c : Combined)
    (x : Notification (ILoadStatusObject IMesh)) : Combined :=
  if closed c then c
  else match x with
       | next v => notifyNext_mesh c v
       | error err => notifyError c err
       | complete => notifyComplete c
       end.

(** One subscription to [cacheAssets()]. *)
Record Invocation : Type := {
  requests : list Request;
  image_sub : ImageSub;
  mesh_sub : MeshSub;
  combined : Combined
}.

(** Subscribing to [cacheAssets()]: [combineLatest] subscribes to
    [cacheImage()], then to [cacheMesh()]. *)
Definition cacheAssets (n : Node) : Invocation :=
  let '(isub, ireqs) := cacheImage_subscribe n in
  let '(msub, mreqs, mcalls) := cacheMesh_subscribe n in
  let '(mstop, mpassed) := Subscriber_calls (mesh_isStopped msub) mcalls in
  let c0 := {| node := n; latest_image := None; latest_mesh := None;
               active := 2; closed := false; out := [] |} in
  {| requests := ireqs ++ mreqs;
     image_sub := isub;
     mesh_sub := {| mesh_xhr := mesh_xhr msub; mesh_isStopped := mstop |};
     combined := fold_left deliver_mesh mpassed c0 |}.

(** One browser event. Once the destination has been sent [error] or
    [complete] the subscription is torn down, and the events that follow
    reach no subscriber. *)
Definition handle (st : Invocation) (ev : BrowserEvent) : Invocation :=
  if closed (combined st) then st
  else
    let '(isub, icalls) := cacheImage_event (image_sub st) ev in
    let '(istop, ipassed) := Subscriber_calls (image_isStopped isub) icalls in
    let c1 := fold_left deliver_image ipassed (combined st) in
    let mcalls := cacheMesh_event (mesh_sub st) ev in
    let '(mstop, mpassed) :=
      Subscriber_calls (mesh_isStopped (mesh_sub st)) mcalls in
    let c2 := fold_left deliver_mesh mpassed c1 in
    {| requests := requests st;
       image_sub := {| img := img isub; img_handlers := img_handlers isub;
                       image_isStopped := istop |};
       mesh_sub := {| mesh_xhr := mesh_xhr (mesh_sub st);
                      mesh_isStopped := mstop |};
       combined := c2 |}.

(** The subscription after the browser has raised the events [evs]. *)
Definition run (n : Node) (evs : list BrowserEvent) : Invocation :=
  fold_left handle evs (cacheAssets n).

End Cache.

End Node.

(** ** KeyboardComponent *)

Module Keyboard.

Import Number Js Edge Node.

Local Open Scope float_scope.

Record KeyboardEvent : Type := {
  keyCode : Z;
  shiftKey : bool;
  altKey : bool
}.

(** What a key handler does to its surroundings: [event.preventDefault()],
    [navigator.moveDir(direction)] and [navigator.moveToKey(key)]. *)
Inductive Command : Type :=
| preventDefault
| moveDir (direction : EdgeDirection)
| moveToKey (key : string).

(** The commands a handler has issued, and the exception that ended it, if
    any. *)
Record Outcome : Type := {
  issued : list Command;
  thrown : option Exception
}.

Definition done (cs : list Command) : Outcome :=
  {| issued := cs; thrown := None |}.

Definition failed (cs : list Command) : Outcome :=
  {| issued := cs; thrown := Some TypeError |}.

Section Navigate.

(** [Spatial.wrapAngle] is called by the component but is not defined in the
    [Spatial] class of the sources: it is a parameter of the component. *)
Variable wrapAngle : float -> float.

Definition threshold : float := Math_PI / 4.

(** The predicate given to [node.edges.filter]. *)
Definition candidate (stepDirection : EdgeDirection) (e : IEdge) : bool :=
  EdgeDirection_eqb (direction (data e)) Pano
  || EdgeDirection_eqb (direction (data e)) stepDirection.

(** [Math.abs(wrapAngle(edge.data.worldMotionAzimuth - navigationAngle))]. *)
Definition angleTo (navigationAngle : float) (edge : IEdge) : float :=
  Math_abs (wrapAngle (worldMotionAzimuth (data edge) - navigationAngle)).

(** The body of the loop, on the pair [(smallestAngle, toKey)]. *)
Definition visit (navigationAngle : float) (st : float * option string)
    (edge : IEdge) : float * option string :=
  let angle := angleTo navigationAngle edge in
  if angle <? Math_min (fst st) threshold
  then (angle, Some (to edge))
  else st.

Definition nearest (navigationAngle : float) (edges : list IEdge)
    : float * option string :=
  fold_left (visit navigationAngle) edges (MAX_VALUE, None).

(** The value of [toKey] after the loop, for the edges of the node, the step
    direction and the navigation angle that the key has set. *)
Definition panoramaTarget (edges : list IEdge)
    (stepDirection : EdgeDirection) (navigationAngle : float)
    : option string :=
  let navigationAngle := wrapAngle navigationAngle in
  let edges := filter (candidate stepDirection) edges in
  snd (nearest navigationAngle edges).

(** The end of [_navigatePanorama]: nothing when [toKey == null], otherwise
    [navigator.moveToKey(toKey)]. *)
Definition navigateStep (edges : list IEdge)
    (stepDirection : EdgeDirection) (navigationAngle : float)
    : list Command :=
  match panoramaTarget edges stepDirection navigationAngle with
  | None => []
  | Some toKey => [moveToKey toKey]
  end.

Definition _moveDir (dir : option EdgeDirection) (node : Node)
    : Outcome :=
  match dir with
  | None => done []
  | Some d =>
      match edges node with
      | None => failed []
      | Some es =>
          if existsb (fun edge => EdgeDirection_eqb (direction (data edge)) d)
               es
          then done [moveDir d]
          else done []
      end
  end.

Definition after (c : Command) (o : Outcome) : Outcome :=
  {| issued := c :: issued o; thrown := thrown o |}.

(** The [switch] of [_navigatePanorama]: [None] for a key that is not
    handled, otherwise [navigationAngle], [stepDirection] and
    [sequenceDirection]. [phi] is [_rotationFromCamera(camera).phi]. *)
Definition panoramaKey (event : KeyboardEvent) (phi : float)
    : option (float * option EdgeDirection * option EdgeDirection) :=
  match keyCode event with
  | 37%Z =>
      if shiftKey event || altKey event then Some (0, None, None)
      else Some (Math_PI / 2 + phi, Some StepLeft, None)
  | 38%Z =>
      if shiftKey event then Some (0, None, None)
      else if altKey event then Some (0, None, Some Next)
      else Some (phi, Some StepForward, None)
  | 39%Z =>
      if shiftKey event || altKey event then Some (0, None, None)
      else Some (- Math_PI / 2 + phi, Some StepRight, None)
  | 40%Z =>
      if shiftKey event then Some (0, None, None)
      else if altKey event then Some (0, None, Some Prev)
      else Some (Math_PI + phi, Some StepBackward, None)
  | _ => None
  end.

Definition _navigatePanorama (event : KeyboardEvent) (node : Node)
    (phi : float) : Outcome :=
  match panoramaKey event phi with
  | None => done []
  | Some (navigationAngle, stepDirection, sequenceDirection) =>
      after preventDefault
        match sequenceDirection with
        | Some d => _moveDir (Some d) node
        | None =>
            match stepDirection with
            | None => done []
            | Some d =>
                match edges node with
                | None => failed []
                | Some es => done (navigateStep es d navigationAngle)
                end
            end
        end
  end.

Definition perspectiveKey (event : KeyboardEvent)
    : option (option EdgeDirection) :=
  match keyCode event with
  | 37%Z =>
      if altKey event then Some None
      else Some (Some (if shiftKey event then TurnLeft else StepLeft))
  | 38%Z =>
      if altKey event then Some (Some Next)
      else Some (Some (if shiftKey event then Pano else StepForward))
  | 39%Z =>
      if altKey event then Some None
      else Some (Some (if shiftKey event then TurnRight else StepRight))
  | 40%Z =>
      if altKey event then Some (Some Prev)
      else Some (Some (if shiftKey event then TurnU else StepBackward))
  | _ => None
  end.

Definition _navigatePerspective (event : KeyboardEvent) (node : Node)
    : Outcome :=
  match perspectiveKey event with
  | None => done []
  | Some direction => after preventDefault (_moveDir direction node)
  end.

(** The subscriber of [_activate], for a key event and the current node. *)
Definition keydown (event : KeyboardEvent) (node : Node) (phi : float)
    : Outcome :=
  if negb (pano node) then _navigatePerspective event node
  else _navigatePanorama event node phi.

End Navigate.

End Keyboard.

(** ** Spatial *)

Module Spatial.

Local Open Scope R_scope.

(** A [number[]] with the three components that [Spatial] reads. *)
Definition number3 : Type := (R * R * R)%type.

(** Modelled from the spec: [THREE.Vector3] and [THREE.Matrix4] belong to
    three.js, which is not part of the sources. Section 4.1 of the
    specification: the matrix of [rotationMatrix] is the homogeneous rotation
    about the normalized axis by the magnitude, normalization is guarded
    against a zero length, and [rotate] applies the matrix to the vector.
    The definitions follow the methods of three.js that the source calls. *)
Record Vector3 : Type := { x : R; y : R; z : R }.

Record Matrix4 : Type := {
  n11 : R; n12 : R; n13 : R; n14 : R;
  n21 : R; n22 : R; n23 : R; n24 : R;
  n31 : R; n32 : R; n33 : R; n34 : R;
  n41 : R; n42 : R; n43 : R; n44 : R
}.

Definition length (v : Vector3) : R :=
  sqrt (x v * x v + y v * y v + z v * z v).

Definition divideScalar (v : Vector3) (scalar : R) : Vector3 :=
  if Req_dec_T scalar 0 then {| x := 0; y := 0; z := 0 |}
  else
    let invScalar := 1 / scalar in
    {| x := x v * invScalar; y := y v * invScalar; z := z v * invScalar |}.

Definition normalize (v : Vector3) : Vector3 := divideScalar v (length v).

Definition makeRotationAxis (axis : Vector3) (angle : R) : Matrix4 :=
  let c := cos angle in
  let s := sin angle in
  let t := 1 - c in
  let tx := t * x axis in
  let ty := t * y axis in
  {| n11 := tx * x axis + c;
     n12 := tx * y axis - s * z axis;
     n13 := tx * z axis + s * y axis;
     n14 := 0;
     n21 := tx * y axis + s * z axis;
     n22 := ty * y axis + c;
     n23 := ty * z axis - s * x axis;
     n24 := 0;
     n31 := tx * z axis - s * y axis;
     n32 := ty * z axis + s * x axis;
     n33 := t * z axis * z axis + c;
     n34 := 0;
     n41 := 0; n42 := 0; n43 := 0; n44 := 1 |}.

Definition applyMatrix4 (v : Vector3) (m : Matrix4) : Vector3 :=
  {| x := n11 m * x v + n12 m * y v + n13 m * z v + n14 m;
     y := n21 m * x v + n22 m * y v + n23 m * z v + n24 m;
     z := n31 m * x v + n32 m * y v + n33 m * z v + n34 m |}.

Definition toArray (v : Vector3) : number3 := (x v, y v, z v).

(** The class [Spatial] of the sources. *)

Definition rotationMatrix (angleAxis : number3) : Matrix4 :=
  let '(a0, a1, a2) := angleAxis in
  let axis := {| x := a0; y := a1; z := a2 |} in
  let angle := length axis in
  let axis := normalize axis in
  makeRotationAxis axis angle.

Definition rotate (vector : number3) (angleAxis : number3) : Vector3 :=
  let '(v0, v1, v2) := vector in
  let v := {| x := v0; y := v1; z := v2 |} in
  let rotationMatrix := rotationMatrix angleAxis in
  applyMatrix4 v rotationMatrix.

(** [[-a[0], -a[1], -a[2]]], as [opticalCenter] and [viewingDirection]
    write it. *)
Definition negate (a : number3) : number3 :=
  let '(a0, a1, a2) := a in (- a0, - a1, - a2).

Definition opticalCenter (rotation translation : number3) : Vector3 :=
  let angleAxis := negate rotation in
  let vector := negate translation in
  rotate vector angleAxis.

Definition viewingDirection (rotation : number3) : Vector3 :=
  let angleAxis := negate rotation in
  rotate (0, 0, 1) angleAxis.

End Spatial.

(** ** NavigationComponent *)

Module Navigation.

Import Js Edge Node.

Local Open Scope string_scope.

(** The table [_dirNames] that the constructor fills; a direction without
    an entry reads as [undefined]. *)
Definition _dirNames (dir : EdgeDirection) : option string :=
  match dir with
  | StepForward => Some "Forward"
  | StepBackward => Some "Backward"
  | StepLeft => Some "Left"
  | StepRight => Some "Right"
  | TurnLeft => Some "Turnleft"
  | TurnRight => Some "Turnright"
  | TurnU => Some "Turnaround"
  | _ => None
  end.

(** A button: its selector and the direction that its [onclick] handler
    passes to [navigator.moveDir]. *)
Record Button : Type := { selector : string; onclick : EdgeDirection }.

Definition _createVNode (direction : EdgeDirection) (name : string) : Button :=
  {| selector := "span.Direction.Direction" ++ name; onclick := direction |}.

(** The node [vd.h(selector, children)] of the component. *)
Record VNode : Type := { container : string; children : list Button }.

Record IVNodeHash : Type := { name : string; vnode : VNode }.

(** The body of the loop over [node.edges], on the array [btns]. *)
Definition add_button (btns : list Button) (edge : IEdge) : list Button :=
  let direction := direction (data edge) in
  match _dirNames direction with
  | None => btns
  | Some name => btns ++ [_createVNode direction name]
  end.

(** The function that [_activate] maps over the current node; [_name] is
    the name of the component. *)
Definition render (_name : string) (node : Node) : Result IVNodeHash :=
  if negb (pano node) then
    match edges node with
    | None => Throw TypeError
    | Some es =>
        Return {| name := _name;
                  vnode := {| container := "div.NavigationComponent";
                              children := fold_left add_button es [] |} |}
    end
  else
    Return {| name := _name;
              vnode := {| container := "div.NavigationComponent";
                          children := [] |} |}.

End Navigation.

(** ** PolygonGeometry *)

Module Polygon.

Import Number.

Local Open Scope float_scope.

(** [Math.max(a, b)]: [NaN] as soon as one argument is [NaN], otherwise the
    larger argument, [+0] counting as larger than [-0]. *)
Definition Math_max (a b : float) : float :=
  if is_nan a || is_nan b then nan
  else if a <? b then b
  else if b <? a then a
  else if is_neg_zero a then b else a.

(** [v[i]] on an array of numbers: [None] is [undefined]. *)
Definition item (v : list float) (i : nat) : option float := nth_error v i.

(** The conversion of [v[i]] to a number: [undefined] becomes [NaN]. *)
Definition ToNumber (a : option float) : float :=
  match a with Some x => x | None => nan end.

(** [a < b] and [a > b] on values that may be [undefined]. *)
Definition lt (a b : option float) : bool := ToNumber a <? ToNumber b.
Definition gt (a b : option float) : bool := ToNumber b <? ToNumber a.

(** [a !== b] on values that may be [undefined]. *)
Definition strict_neq (a b : option float) : bool :=
  match a, b with
  | Some x, Some y => negb (x =? y)
  | None, None => false
  | _, _ => true
  end.

(** What a method of the class does: it returns, or it throws a
    [GeometryTagError] with a message. *)
Inductive Completion (A : Type) : Type :=
| Normal (a : A) : Completion A
| GeometryTagError (message : string) : Completion A.

Arguments Normal {A} a.
Arguments GeometryTagError {A} message.

(** The object: the array of vertices, and the number of times
    [_notifyChanged$.next(this)] has been called. *)
Record PolygonGeometry : Type := {
  _polygon : list (list float);
  notifications : nat
}.

(** [polygon[i]], for the indices the constructor reads; the length test
    comes first, so the rows exist. *)
Definition row (polygon : list (list float)) (i : nat) : list float :=
  nth i polygon [].

Definition open_ended (polygon : list (list float)) : bool :=
  let length := List.length polygon in
  strict_neq (item (row polygon 0) 0) (item (row polygon (length - 1)) 0)
  || strict_neq (item (row polygon 0) 1) (item (row polygon (length - 1)) 1).

Definition outside (vertex : list float) : bool :=
  lt (item vertex 0) (Some 0) || gt (item vertex 0) (Some 1)
  || lt (item vertex 1) (Some 0) || gt (item vertex 1) (Some 1).

(** The loop of the constructor, on the array built so far. *)
Fixpoint copy_vertices (polygon acc : list (list float))
    : Completion (list (list float)) :=
  match polygon with
  | [] => Normal acc
  | vertex :: rest =>
      if outside vertex
      then GeometryTagError
             "Basic coordinates must be on the interval [0, 1]."
      else copy_vertices rest (acc ++ [vertex])
  end.

Definition new_PolygonGeometry (polygon : list (list float))
    : Completion PolygonGeometry :=
  let length := List.length polygon in
  if (length <? 3)%nat then
    GeometryTagError "A polygon must have three or more positions."
  else if open_ended polygon then
    GeometryTagError "First and last positions must be equivalent."
  else
    match copy_vertices polygon [] with
    | Normal p => Normal {| _polygon := p; notifications := 0 |}
    | GeometryTagError m => GeometryTagError m
    end.

Definition polygon (g : PolygonGeometry) : list (list float) := _polygon g.

(** [Math.max(0, Math.min(1, x))]. *)
Definition clamp (x : option float) : float :=
  Math_max 0 (Math_min 1 (ToNumber x)).

(** [array.splice(start, 0, item)] for a start within the array. *)
Definition insert_at {A : Type} (start : nat) (x : A) (l : list A) : list A :=
  firstn start l ++ x :: skipn start l.

(** [array.splice(start, 1)] for a start within the array. *)
Definition remove_at {A : Type} (start : nat) (l : list A) : list A :=
  firstn start l ++ skipn (S start) l.

Definition notify (p : list (list float)) (g : PolygonGeometry)
    : PolygonGeometry :=
  {| _polygon := p; notifications := S (notifications g) |}.

(** [splice(length - 1, 0, clamped)]: on an empty array the start [-1] is
    taken from the end and lands on [0], as the truncated subtraction
    does. *)
Definition addVertex2d (g : PolygonGeometry) (vertex : list float)
    : PolygonGeometry :=
  let clamped := [clamp (item vertex 0); clamp (item vertex 1)] in
  notify (insert_at (List.length (_polygon g) - 1) clamped (_polygon g)) g.

(** [removeVertex2d], for an index that is an integer. The guard leaves a
    polygon of four positions or more and an index within it, so both
    [splice] calls remove one element and [_polygon[0]] exists when the
    polygon is closed again. *)
Definition removeVertex2d (g : PolygonGeometry) (index : Z)
    : Completion PolygonGeometry :=
  let length := Z.of_nat (List.length (_polygon g)) in
  if (index <? 0)%Z || (index >=? length)%Z || (length <? 4)%Z then
    GeometryTagError "Index for removed vertex must be valid."
  else if (index >? 0)%Z && (index <? length - 1)%Z then
    Normal (notify (remove_at (Z.to_nat index) (_polygon g)) g)
  else
    let p1 := remove_at 0 (_polygon g) in
    let p2 := removelast p1 in
    let closing := row p2 0 in
    Normal (notify (p2 ++ [closing]) g).

(** [array[i] = x] for an index within the array. *)
Fixpoint assign {A : Type} (l : list A) (i : nat) (x : A) : list A :=
  match l, i with
  | [], _ => []
  | _ :: rest, O => x :: rest
  | y :: rest, S i' => y :: assign rest i' x
  end.

(** [setVertex2d]. With [index] the first or the last index, both ends are
    written, the second through the length as it is after the first write
    (on an empty array the first write makes it one long). Otherwise
    [_polygon[index]] is written: an element for an index within the array,
    a new last element for the index one past the end, a named property
    (the elements stay as they are) for a negative index. An index farther
    past the end leaves holes in the array, which the list does not
    represent: the result is [None]. *)
Definition setVertex2d (g : PolygonGeometry) (index : Z) (value : list float)
    : option PolygonGeometry :=
  let changed := [clamp (item value 0); clamp (item value 1)] in
  let length := Z.of_nat (List.length (_polygon g)) in
  if (index =? 0)%Z || (index =? length - 1)%Z then
    let p := match _polygon g with
             | [] => [changed]
             | _ :: _ => assign (_polygon g) 0 changed
             end in
    Some (notify (assign p (List.length p - 1) changed) g)
  else if (index <? 0)%Z then Some (notify (_polygon g) g)
  else if (index <? length)%Z then
    Some (notify (assign (_polygon g) (Z.to_nat index) changed) g)
  else if (index =? length)%Z then
    Some (notify (_polygon g ++ [changed]) g)
  else None.

End Polygon.

(** ** OutlineTag *)

Module OutlineTag.

Import Js.

Local Open Scope float_scope.

(** [IOutlineTagOptions]: every option may be left out ([undefined]) or be
    [null]. [A] is the enumeration [Alignment], declared in [../Component],
    which is not part of the sources. *)
Module Options.
Record IOutlineTagOptions (A : Type) : Type := {
  editable : Ref bool;
  fillColor : Ref float;
  fillOpacity : Ref float;
  icon : Ref string;
  iconAlignment : Ref A;
  iconIndex : Ref float;
  indicateVertices : Ref bool;
  lineColor : Ref float;
  lineWidth : Ref float;
  text : Ref string;
  textColor : Ref float
}.
Arguments editable {A} _.
Arguments fillColor {A} _.
Arguments fillOpacity {A} _.
Arguments icon {A} _.
Arguments iconAlignment {A} _.
Arguments iconIndex {A} _.
Arguments indicateVertices {A} _.
Arguments lineColor {A} _.
Arguments lineWidth {A} _.
Arguments text {A} _.
Arguments textColor {A} _.
End Options.

Import Options.

(** The object: its identifier and geometry (of a type [G]), the private
    fields of the options ([None] is [null]), and the number of times
    [_notifyChanged$.next(this)] has been called. *)
Record OutlineTag (A G : Type) : Type := {
  _id : string;
  _geometry : G;
  _editable : bool;
  _fillColor : float;
  _fillOpacity : float;
  _icon : option string;
  _iconAlignment : A;
  _iconIndex : float;
  _indicateVertices : bool;
  _lineColor : float;
  _lineWidth : float;
  _text : option string;
  _textColor : float;
  notifications : nat
}.

Arguments _id {A G} _.
Arguments _geometry {A G} _.
Arguments _editable {A G} _.
Arguments _fillColor {A G} _.
Arguments _fillOpacity {A G} _.
Arguments _icon {A G} _.
Arguments _iconAlignment {A G} _.
Arguments _iconIndex {A G} _.
Arguments _indicateVertices {A G} _.
Arguments _lineColor {A G} _.
Arguments _lineWidth {A G} _.
Arguments _text {A G} _.
Arguments _textColor {A G} _.
Arguments notifications {A G} _.

(** [option == null ? current : option]. *)
Definition or_else {B : Type} (given : Ref B) (current : B) : B :=
  match given with obj v => v | _ => current end.

(** [option === undefined ? current : option], the value being a string or
    [null]. *)
Definition unless_undefined (given : Ref string) (current : option string)
    : option string :=
  match given with
  | undefined => current
  | null => None
  | obj v => Some v
  end.

(** [new OutlineTag(id, geometry, options)]; [Outer] is [Alignment.Outer]. *)
Definition new_OutlineTag {A G : Type} (Outer : A) (id : string)
    (geometry : G) (options : IOutlineTagOptions A) : OutlineTag A G :=
  {| _id := id;
     _geometry := geometry;
     _editable := or_else (editable options) false;
     _fillColor := or_else (fillColor options) 0xFFFFFF;
     _fillOpacity := or_else (fillOpacity options) 0.0;
     _icon := unless_undefined (icon options) None;
     _iconAlignment := or_else (iconAlignment options) Outer;
     _iconIndex := or_else (iconIndex options) 3;
     _indicateVertices := or_else (indicateVertices options) true;
     _lineColor := or_else (lineColor options) 0xFFFFFF;
     _lineWidth := or_else (lineWidth options) 1;
     _text := unless_undefined (text options) None;
     _textColor := or_else (textColor options) 0xFFFFFF;
     notifications := 0 |}.

Definition setOptions {A G : Type} (t : OutlineTag A G)
    (options : IOutlineTagOptions A) : OutlineTag A G :=
  {| _id := _id t;
     _geometry := _geometry t;
     _editable := or_else (editable options) (_editable t);
     _icon := unless_undefined (icon options) (_icon t);
     _iconAlignment := or_else (iconAlignment options) (_iconAlignment t);
     _iconIndex := or_else (iconIndex options) (_iconIndex t);
     _indicateVertices :=
       or_else (indicateVertices options) (_indicateVertices t);
     _lineColor := or_else (lineColor options) (_lineColor t);
     _lineWidth := or_else (lineWidth options) (_lineWidth t);
     _fillColor := or_else (fillColor options) (_fillColor t);
     _fillOpacity := or_else (fillOpacity options) (_fillOpacity t);
     _text := unless_undefined (text options) (_text t);
     _textColor := or_else (textColor options) (_textColor t);
     notifications := S (notifications t) |}.

End OutlineTag.

(** * Properties *)

Module NumberFacts.

Import Number.

Local Open Scope float_scope.

(** ** The order of binary64 values

    The comparison [<] of JavaScript is [PrimFloat.ltb]; its properties are
    obtained from the specification [SFcompare] of the standard library. *)

Ltac cmp_cases :=
  repeat match goal with
  | H : context [Pos.compare_cont Eq ?a ?b] |- _ =>
      change (Pos.compare_cont Eq a b) with (Pos.compare a b) in H
  | |- context [Pos.compare_cont Eq ?a ?b] =>
      change (Pos.compare_cont Eq a b) with (Pos.compare a b)
  end;
  repeat match goal with
  | H : context [Z.compare ?a ?b] |- _ =>
      destruct (Z.compare_spec a b); simpl in H; try discriminate H
  | H : context [Pos.compare ?a ?b] |- _ =>
      destruct (Pos.compare_spec a b); simpl in H; try discriminate H
  | |- context [Z.compare ?a ?b] =>
      destruct (Z.compare_spec a b); simpl
  | |- context [Pos.compare ?a ?b] =>
      destruct (Pos.compare_spec a b); simpl
  end;
  subst; try reflexivity; try discriminate; try lia.

Ltac sf_destruct f := destruct f as [[|]|[|]| |[|] ? ?].

Lemma SFltb_trans a b c :
  SFltb a b = true -> SFltb b c = true -> SFltb a c = true.
Proof.
  unfold SFltb, SFcompare.
  sf_destruct a; sf_destruct b; try discriminate;
    sf_destruct c; try discriminate; try reflexivity;
    intros H1 H2; cmp_cases.
Qed.

Lemma SFltb_indiff a b x :
  a <> S754_nan -> b <> S754_nan ->
  SFltb a b = false -> SFltb b a = false -> SFltb x a = SFltb x b.
Proof.
  unfold SFltb, SFcompare.
  sf_destruct a; sf_destruct b; try congruence; try discriminate;
    sf_destruct x; try reflexivity;
    intros _ _ H1 H2; cmp_cases.
Qed.

Lemma SFleb_false_ltb a b :
  a <> S754_nan -> b <> S754_nan -> SFleb a b = false -> SFltb b a = true.
Proof.
  unfold SFltb, SFleb, SFcompare.
  sf_destruct a; sf_destruct b; try congruence; try discriminate;
    try reflexivity; intros _ _ H1; cmp_cases.
Qed.

Lemma SFleb_ltb_trans a b c :
  SFleb a b = true -> SFltb b c = true -> SFltb a c = true.
Proof.
  unfold SFltb, SFleb, SFcompare.
  sf_destruct a; sf_destruct b; try discriminate;
    sf_destruct c; try discriminate; try reflexivity;
    intros H1 H2; cmp_cases.
Qed.

Lemma SFltb_leb a b : SFltb a b = true -> SFleb a b = true.
Proof.
  unfold SFltb, SFleb. destruct (SFcompare a b) as [[| |]|]; congruence.
Qed.

Lemma SFltb_not_leb a b : SFltb a b = true -> SFleb b a = false.
Proof.
  unfold SFltb, SFleb, SFcompare.
  sf_destruct a; sf_destruct b; try discriminate; try reflexivity;
    intros H1; cmp_cases.
Qed.

Lemma SFltb_nan_r x : SFltb x S754_nan = false.
Proof. destruct x; reflexivity. Qed.

Lemma SFeqb_refl_nan f : SFeqb f f = false -> f = S754_nan.
Proof.
  unfold SFeqb, SFcompare.
  sf_destruct f; try discriminate; try reflexivity; intros H; cmp_cases.
Qed.

Lemma SFeqb_nan f : SFeqb f f = true -> f <> S754_nan.
Proof. intros H ->. discriminate H. Qed.

Lemma SFltb_irrefl f : SFltb f f = false.
Proof.
  unfold SFltb, SFcompare. sf_destruct f; try reflexivity; cmp_cases.
Qed.

Lemma SFeqb_not_ltb a b : SFeqb a b = true -> SFltb b a = false.
Proof.
  unfold SFltb, SFeqb, SFcompare.
  sf_destruct a; sf_destruct b; try discriminate; try reflexivity;
    intros H; cmp_cases.
Qed.

Lemma ltb_trans (a b c : float) :
  (a <? b) = true -> (b <? c) = true -> (a <? c) = true.
Proof. rewrite !ltb_spec. apply SFltb_trans. Qed.

Lemma leb_ltb_trans (a b c : float) :
  (a <=? b) = true -> (b <? c) = true -> (a <? c) = true.
Proof. rewrite leb_spec, !ltb_spec. apply SFleb_ltb_trans. Qed.

Lemma ltb_leb (a b : float) : (a <? b) = true -> (a <=? b) = true.
Proof. rewrite leb_spec, ltb_spec. apply SFltb_leb. Qed.

Lemma ltb_not_leb (a b : float) : (a <? b) = true -> (b <=? a) = false.
Proof. rewrite leb_spec, ltb_spec. apply SFltb_not_leb. Qed.

Lemma ltb_irrefl (a : float) : (a <? a) = false.
Proof. rewrite ltb_spec. apply SFltb_irrefl. Qed.

Lemma eqb_not_ltb (a b : float) : (a =? b) = true -> (b <? a) = false.
Proof. rewrite eqb_spec, ltb_spec. apply SFeqb_not_ltb. Qed.

Lemma ltb_not_nan_l (a b : float) : (a <? b) = true -> Prim2SF a <> S754_nan.
Proof. rewrite ltb_spec. intros H E. rewrite E in H. discriminate H. Qed.

(** Two comparable values of which the first is not below the second:
    the second is strictly smaller. *)
Lemma leb_false_ltb (a b ta tb : float) :
  (a <? ta) = true -> (b <? tb) = true -> (a <=? b) = false -> (b <? a) = true.
Proof.
  intros Ha Hb. apply ltb_not_nan_l in Ha. apply ltb_not_nan_l in Hb.
  rewrite leb_spec, ltb_spec. now apply SFleb_false_ltb.
Qed.

(** Being below [Math.min(a, b)] is being below both [a] and [b], also when
    [NaN] is involved. *)
Lemma ltb_Math_min (x a b : float) :
  (x <? Math_min a b) = (x <? a) && (x <? b).
Proof.
  assert (Hnan : forall y, (y <? nan) = false).
  { intros y. rewrite ltb_spec. change (Prim2SF nan) with S754_nan.
    apply SFltb_nan_r. }
  unfold Math_min, is_nan. rewrite !eqb_spec.
  destruct (SFeqb (Prim2SF a) (Prim2SF a)) eqn:Ea; simpl.
  2:{ apply SFeqb_refl_nan in Ea.
      now rewrite Hnan, (ltb_spec x a), Ea, SFltb_nan_r. }
  destruct (SFeqb (Prim2SF b) (Prim2SF b)) eqn:Eb; simpl.
  2:{ apply SFeqb_refl_nan in Eb.
      now rewrite Hnan, (ltb_spec x b), Eb, SFltb_nan_r, andb_false_r. }
  apply SFeqb_nan in Ea. apply SFeqb_nan in Eb.
  destruct (a <? b) eqn:Hab.
  { destruct (x <? a) eqn:Hxa; [|reflexivity].
    simpl. symmetry. eapply ltb_trans; eassumption. }
  destruct (b <? a) eqn:Hba.
  { destruct (x <? b) eqn:Hxb.
    - now rewrite (ltb_trans _ _ _ Hxb Hba).
    - now rewrite andb_false_r. }
  assert (Hx : (x <? a) = (x <? b)).
  { rewrite ltb_spec in Hab, Hba. rewrite !ltb_spec.
    now apply SFltb_indiff. }
  destruct (is_neg_zero a); rewrite ?Hx; now rewrite andb_diag.
Qed.

End NumberFacts.

(** ** The panoramic edge selection *)

Module KeyboardFacts.

Import Number NumberFacts Js Edge Node Keyboard.

Local Open Scope float_scope.

Section Selection.

Variable wrapAngle : float -> float.

(** The navigation angle after [wrapAngle], as the loop reads it. *)
Variable desired : float.

Local Abbreviation diff := (angleTo wrapAngle desired).

Lemma threshold_below_MAX_VALUE : (threshold <? MAX_VALUE) = true.
Proof. reflexivity. Qed.

Lemma visit_eq (s : float) (k : option string) (e : IEdge) :
  visit wrapAngle desired (s, k) e =
  if (diff e <? s) && (diff e <? threshold)
  then (diff e, Some (to e)) else (s, k).
Proof. unfold visit. simpl fst. now rewrite ltb_Math_min. Qed.

(** The loop over a list, started as the source starts it: either no edge
    was below the threshold, or the state is the first edge of the list,
    below the threshold, at the smallest difference: every edge before it is
    farther (or not comparable), no edge after it is closer. *)
Lemma nearest_first (l : list IEdge) :
  (nearest wrapAngle desired l = (MAX_VALUE, None)
   /\ forall c, In c l -> (diff c <? threshold) = false)
  \/
  (exists pre e post,
     l = pre ++ e :: post
     /\ nearest wrapAngle desired l = (diff e, Some (to e))
     /\ (diff e <? threshold) = true
     /\ (forall c, In c pre -> (diff c <=? diff e) = false)
     /\ (forall c, In c post -> (diff c <? diff e) = false)).
Proof.
  induction l as [|x l IH] using rev_ind.
  - left. split; [reflexivity|]. intros c [].
  - unfold nearest in *. rewrite fold_left_app. simpl.
    destruct IH as [[E Hall]|(pre & e & post & -> & E & Hthr & Hpre & Hpost)];
      rewrite E, visit_eq.
    + destruct (diff x <? threshold) eqn:Hx.
      * rewrite (ltb_trans (diff x) threshold MAX_VALUE Hx
                   threshold_below_MAX_VALUE). simpl.
        right. exists l, x, [].
        split; [reflexivity|]. split; [reflexivity|]. split; [exact Hx|].
        split; [|intros c []].
        intros c Hc. destruct (diff c <=? diff x) eqn:Hcx; [|reflexivity].
        rewrite <- (Hall c Hc). symmetry. eapply leb_ltb_trans; eassumption.
      * rewrite andb_false_r. left. split; [reflexivity|].
        intros c Hc. apply in_app_or in Hc. destruct Hc as [Hc|[<-|[]]]; auto.
    + destruct (diff x <? diff e) eqn:Hxe.
      * rewrite (ltb_trans _ _ _ Hxe Hthr). simpl.
        right. exists (pre ++ e :: post), x, [].
        split; [reflexivity|]. split; [reflexivity|].
        split; [eapply ltb_trans; eassumption|].
        split; [|intros c []].
        intros c Hc. destruct (diff c <=? diff x) eqn:Hcx; [|reflexivity].
        pose proof (leb_ltb_trans _ _ _ Hcx Hxe) as Hce.
        apply in_app_or in Hc. destruct Hc as [Hc|[<-|Hc]].
        -- rewrite <- (Hpre c Hc). symmetry. now apply ltb_leb.
        -- now rewrite ltb_irrefl in Hce.
        -- now rewrite <- (Hpost c Hc).
      * simpl. right. exists pre, e, (post ++ [x]).
        split; [now rewrite <- app_assoc|].
        split; [reflexivity|]. split; [exact Hthr|]. split; [exact Hpre|].
        intros c Hc. apply in_app_or in Hc. destruct Hc as [Hc|[<-|[]]]; auto.
Qed.

(** In particular no edge of the list undercuts the state of the loop. *)
Lemma nearest_spec (l : list IEdge) :
  (nearest wrapAngle desired l = (MAX_VALUE, None)
   /\ forall c, In c l -> (diff c <? threshold) = false)
  \/
  (exists e, In e l
   /\ nearest wrapAngle desired l = (diff e, Some (to e))
   /\ (diff e <? threshold) = true
   /\ forall c, In c l -> (diff c <? diff e) = false).
Proof.
  destruct (nearest_first l)
    as [H|(pre & e & post & -> & E & Hthr & Hpre & Hpost)]; [now left|].
  right. exists e. split; [apply in_elt|]. split; [exact E|].
  split; [exact Hthr|].
  intros c Hc. apply in_app_or in Hc. destruct Hc as [Hc|[<-|Hc]].
  - destruct (diff c <? diff e) eqn:Hce; [|reflexivity].
    rewrite <- (Hpre c Hc). symmetry. now apply ltb_leb.
  - apply ltb_irrefl.
  - now apply Hpost.
Qed.

(** Edges that do not undercut the running best leave it in place. *)
Lemma fold_visit_stable (l : list IEdge) (s : float) (k : option string) :
  (forall c, In c l -> (diff c <? s) = false) ->
  fold_left (visit wrapAngle desired) l (s, k) = (s, k).
Proof.
  induction l as [|x l IH]; intros H; [reflexivity|].
  simpl. rewrite visit_eq, (H x (in_eq _ _)). simpl.
  apply IH. intros c Hc. apply H. now right.
Qed.

(** An edge below the threshold that every earlier edge exceeds becomes the
    running best. *)
Lemma nearest_snoc_first (l : list IEdge) (e : IEdge) :
  (diff e <? threshold) = true ->
  (forall c, In c l -> (diff c <=? diff e) = false) ->
  nearest wrapAngle desired (l ++ [e]) = (diff e, Some (to e)).
Proof.
  intros Hthr Hpre. unfold nearest. rewrite fold_left_app. simpl.
  destruct (nearest_spec l) as [[E _]|[c [Hc [E [Hc_thr _]]]]];
    unfold nearest in E; rewrite E, visit_eq, Hthr.
  - now rewrite (ltb_trans (diff e) threshold MAX_VALUE Hthr
                     threshold_below_MAX_VALUE).
  - now rewrite (leb_false_ltb _ _ _ _ Hc_thr Hthr (Hpre c Hc)).
Qed.

Lemma nearest_first_minimum (pre post : list IEdge) (e : IEdge) :
  (diff e <? threshold) = true ->
  (forall c, In c pre -> (diff c <=? diff e) = false) ->
  (forall c, In c post -> (diff c <? diff e) = false) ->
  nearest wrapAngle desired (pre ++ e :: post) = (diff e, Some (to e)).
Proof.
  intros Hthr Hpre Hpost.
  change (pre ++ e :: post) with (pre ++ [e] ++ post).
  rewrite app_assoc. unfold nearest. rewrite fold_left_app.
  fold (nearest wrapAngle desired (pre ++ [e])).
  rewrite (nearest_snoc_first pre e Hthr Hpre).
  now apply fold_visit_stable.
Qed.

End Selection.

(** A split of the filtered list comes from a split of the list. *)
Lemma filter_split {A : Type} (f : A -> bool) (l pre post : list A) (e : A) :
  filter f l = pre ++ e :: post ->
  exists pre0 post0,
    l = pre0 ++ e :: post0 /\ filter f pre0 = pre /\ filter f post0 = post.
Proof.
  revert pre. induction l as [|x l IH]; intros pre E; simpl in E.
  - now destruct pre.
  - destruct (f x) eqn:Hx.
    + destruct pre as [|p pre]; simpl in E; injection E as -> E.
      * exists [], l. repeat split. exact E.
      * destruct (IH pre E) as (pre0 & post0 & -> & Hpre & Hpost).
        exists (p :: pre0), post0. simpl. rewrite Hx, Hpre. now repeat split.
    + destruct (IH pre E) as (pre0 & post0 & -> & Hpre & Hpost).
      exists (x :: pre0), post0. simpl. rewrite Hx. now repeat split.
Qed.

Lemma EdgeDirection_eqb_eq (d1 d2 : EdgeDirection) :
  EdgeDirection_eqb d1 d2 = true <-> d1 = d2.
Proof. destruct d1, d2; simpl; split; congruence. Qed.

Lemma candidate_iff (stepDirection : EdgeDirection) (e : IEdge) :
  candidate stepDirection e = true <->
  direction (data e) = stepDirection \/ direction (data e) = Pano.
Proof.
  unfold candidate. rewrite orb_true_iff, !EdgeDirection_eqb_eq. tauto.
Qed.

(** A step key, on a node whose edges are assigned: the handler prevents the
    default action and then does what [navigateStep] does. *)
Lemma navigatePanorama_step (wrapAngle : float -> float)
    (event : KeyboardEvent) (node : Node) (phi navigationAngle : float)
    (stepDirection : EdgeDirection) (es : list IEdge) :
  panoramaKey event phi = Some (navigationAngle, Some stepDirection, None) ->
  edges node = Some es ->
  _navigatePanorama wrapAngle event node phi
  = done (preventDefault
            :: navigateStep wrapAngle es stepDirection navigationAngle).
Proof.
  intros Hk He. unfold _navigatePanorama. now rewrite Hk, He.
Qed.

(** C1. For every edge list of a node, requested step direction and
    navigation angle, the panoramic selection considers exactly the edges
    whose direction is the requested one or [Pano]. Either it issues the move
    to the target key of a considered edge whose absolute wrapped difference
    [|wrapAngle(worldMotionAzimuth - desired)|] to the desired (wrapped)
    navigation angle is strictly below [Math.PI / 4] and is undercut by no
    considered edge; or no considered edge is strictly below the threshold,
    the selection is none and no move is issued. *)
Theorem panorama_selects_nearest_within_threshold :
  forall (wrapAngle : float -> float) (edges : list IEdge)
         (stepDirection : EdgeDirection) (navigationAngle : float),
    let desired := wrapAngle navigationAngle in
    let diff := fun e : IEdge =>
      Math_abs (wrapAngle (worldMotionAzimuth (data e) - desired)) in
    let considered := fun e : IEdge =>
      In e edges
      /\ (direction (data e) = stepDirection \/ direction (data e) = Pano) in
    (exists e, considered e
       /\ panoramaTarget wrapAngle edges stepDirection navigationAngle
          = Some (to e)
       /\ navigateStep wrapAngle edges stepDirection navigationAngle
          = [moveToKey (to e)]
       /\ (diff e <? Math_PI / 4) = true
       /\ forall c, considered c -> (diff c <? diff e) = false)
    \/
    (panoramaTarget wrapAngle edges stepDirection navigationAngle = None
     /\ navigateStep wrapAngle edges stepDirection navigationAngle = []
     /\ forall c, considered c -> (diff c <? Math_PI / 4) = false).
Proof.
  intros wrapAngle edges stepDirection navigationAngle desired diff considered.
  assert (Hcons : forall c, considered c <->
            In c (filter (candidate stepDirection) edges)).
  { intros c. unfold considered. rewrite filter_In, candidate_iff. tauto. }
  unfold navigateStep, panoramaTarget. fold desired.
  destruct (nearest_spec wrapAngle desired
              (filter (candidate stepDirection) edges))
    as [[E Hall]|[e [He [E [Hthr Hmin]]]]]; rewrite E; simpl.
  - right. split; [reflexivity|]. split; [reflexivity|].
    intros c Hc. apply Hall. now apply Hcons.
  - left. exists e.
    split; [now apply Hcons|].
    split; [reflexivity|]. split; [reflexivity|]. split; [exact Hthr|].
    intros c Hc. apply Hmin. now apply Hcons.
Qed.

(** C2. The strict comparison makes the first-encountered edge win every
    tie. For every edge list, step direction and navigation angle: the edge
    whose key is selected is the first considered edge, in the order of the
    edge list, at the smallest difference (every considered edge before it is
    strictly farther, no considered edge after it is strictly closer). So
    when two considered edges are at exactly the same difference, below
    [Math.PI / 4], and no considered edge is closer, the selection is the
    target key of the one that comes first in the edge list of the node. *)
Theorem first_edge_wins_tie :
  forall (wrapAngle : float -> float) (edges : list IEdge)
         (stepDirection : EdgeDirection) (navigationAngle : float),
    let desired := wrapAngle navigationAngle in
    let diff := fun e : IEdge =>
      Math_abs (wrapAngle (worldMotionAzimuth (data e) - desired)) in
    let considered := fun e : IEdge =>
      direction (data e) = stepDirection \/ direction (data e) = Pano in
    (forall toKey,
       panoramaTarget wrapAngle edges stepDirection navigationAngle
         = Some toKey ->
       exists pre e post,
         edges = pre ++ e :: post
         /\ to e = toKey
         /\ considered e
         /\ (diff e <? Math_PI / 4) = true
         /\ (forall c, In c pre -> considered c ->
                       (diff c <=? diff e) = false)
         /\ (forall c, In c post -> considered c ->
                       (diff c <? diff e) = false))
    /\
    (forall (pre mid post : list IEdge) (e1 e2 : IEdge),
       edges = pre ++ e1 :: mid ++ e2 :: post ->
       considered e1 ->
       considered e2 ->
       (diff e1 =? diff e2) = true ->
       (diff e1 <? Math_PI / 4) = true ->
       (forall c, In c pre -> considered c -> (diff c <=? diff e1) = false) ->
       (forall c, In c (mid ++ post) -> considered c ->
                  (diff c <? diff e1) = false) ->
       panoramaTarget wrapAngle edges stepDirection navigationAngle
         = Some (to e1)
       /\ navigateStep wrapAngle edges stepDirection navigationAngle
         = [moveToKey (to e1)]).
Proof.
  intros wrapAngle edges stepDirection navigationAngle desired diff considered.
  split.
  - intros toKey. unfold panoramaTarget. fold desired.
    destruct (nearest_first wrapAngle desired
                (filter (candidate stepDirection) edges))
      as [[E _]|(pre & e & post & Ef & E & Hthr & Hpre & Hpost)];
      rewrite E; simpl; intros Hk; [discriminate|].
    injection Hk as <-.
    assert (He : considered e).
    { apply candidate_iff.
      apply (proj1 (filter_In (candidate stepDirection) e edges)).
      rewrite Ef. apply in_elt. }
    destruct (filter_split _ _ _ _ _ Ef) as (pre0 & post0 & -> & Fpre & Fpost).
    exists pre0, e, post0.
    split; [reflexivity|]. split; [reflexivity|]. split; [exact He|].
    split; [exact Hthr|]. split.
    + intros c Hc Hcons. apply Hpre. rewrite <- Fpre.
      apply filter_In. split; [exact Hc|]. now apply candidate_iff.
    + intros c Hc Hcons. apply Hpost. rewrite <- Fpost.
      apply filter_In. split; [exact Hc|]. now apply candidate_iff.
  - intros pre mid post e1 e2 -> H1 H2 Htie Hthr Hpre Hrest.
    assert (E : panoramaTarget wrapAngle (pre ++ e1 :: mid ++ e2 :: post)
                  stepDirection navigationAngle = Some (to e1)).
    { unfold panoramaTarget. fold desired.
      rewrite filter_app. simpl.
      rewrite (proj2 (candidate_iff stepDirection e1) H1).
      rewrite (nearest_first_minimum wrapAngle desired);
        [reflexivity|exact Hthr| |].
      - intros c Hc. apply filter_In in Hc. destruct Hc as [Hc Hcand].
        apply Hpre; [exact Hc|]. now apply candidate_iff.
      - intros c Hc. apply filter_In in Hc. destruct Hc as [Hc Hcand].
        apply candidate_iff in Hcand.
        apply in_app_or in Hc. destruct Hc as [Hc|[<-|Hc]].
        + apply Hrest; auto using in_or_app.
        + now apply eqb_not_ltb.
        + apply Hrest; auto using in_or_app. }
    split; [exact E|]. unfold navigateStep. now rewrite E.
Qed.

(** *** Scenarios of the specification

    The angles of the scenarios lie in [(-pi, pi]], where wrapping an angle
    leaves it as it is. *)

Local Open Scope string_scope.

Definition degrees (d : float) : float := d * Math_PI / 180.

Definition edge (key : string) (d : EdgeDirection) (azimuth : float) : IEdge :=
  {| to := key;
     data := {| direction := d; worldMotionAzimuth := degrees azimuth |} |}.

Definition unwrapped (angle : float) : float := angle.

Lemma first_edge_wins_tie_witness :
  panoramaTarget unwrapped
    [edge "far" StepForward 40; edge "plus" StepForward 30;
     edge "minus" StepForward (-30); edge "pano" Pano 35]
    StepForward 0
  = Some "plus"
  /\ navigateStep unwrapped
       [edge "far" StepForward 40; edge "plus" StepForward 30;
        edge "minus" StepForward (-30); edge "pano" Pano 35]
       StepForward 0
     = [moveToKey "plus"].
Proof.
  apply (proj2 (first_edge_wins_tie unwrapped _ StepForward 0)
           [edge "far" StepForward 40] [] [edge "pano" Pano 35]
           (edge "plus" StepForward 30) (edge "minus" StepForward (-30))).
  - reflexivity.
  - left. reflexivity.
  - left. reflexivity.
  - reflexivity.
  - reflexivity.
  - intros c [<-|[]] _. reflexivity.
  - intros c [<-|[]] _. reflexivity.
Defined.

Example threshold_scenario_nearest :
  navigateStep unwrapped
    [edge "a" StepForward 0; edge "b" StepForward 50;
     edge "c" StepForward 170]
    StepForward (degrees 10)
  = [moveToKey "a"].
Proof. reflexivity. Qed.

Example threshold_scenario_none :
  navigateStep unwrapped [edge "c" StepForward 170] StepForward (degrees 10)
  = [].
Proof. reflexivity. Qed.

Example single_edge_scenario :
  navigateStep unwrapped [edge "B" StepForward 5] StepForward 0
  = [moveToKey "B"].
Proof. reflexivity. Qed.

End KeyboardFacts.

(** ** The asset cache of Node *)

Module NodeFacts.

Import Js Edge Graph Node.

Local Open Scope N_scope.

Definition is_next {A : Type} (x : Notification A) : Prop :=
  match x with next _ => True | _ => False end.

(** The latest value of a source carries an asset. *)
Definition decoded {A : Type} (x : option (ILoadStatusObject A)) : Prop :=
  exists v a, x = Some v /\ object v = Some a.

(** The number of sources whose subscriber is not stopped. *)
Definition open_sources (image_stopped mesh_stopped : bool) : nat :=
  (if image_stopped then 0 else 1) + (if mesh_stopped then 0 else 1).

(** The load status that [project] computes: zero, plus the counts of the
    mesh value, plus the counts of the image value. *)
Definition sum_status (i : ILoadStatusObject HTMLImageElement)
    (m : ILoadStatusObject IMesh) : ILoadStatus :=
  {| Graph.loaded := Graph.loaded (lso_loaded m) + Graph.loaded (lso_loaded i);
     total := total (lso_loaded m) + total (lso_loaded i) |}.

(** The invariant of a subscription to [cacheAssets()].
    - While it is open, only [next] has been delivered, [active] counts the
      sources that are not stopped, and a stopped source has completed: its
      latest value carries its asset.
    - Once both sources have a value, the node holds what [project] made of
      the latest two.
    - The node is yielded only when both sources have a value.
    - Once it is closed, exactly one [error] or [complete] has been
      delivered, last; [complete] only after both sources completed. *)
Record Inv (st : Invocation) : Prop := {
  inv_open :
    closed (combined st) = false ->
    Forall is_next (out (combined st))
    /\ active (combined st)
       = open_sources (image_isStopped (image_sub st))
           (mesh_isStopped (mesh_sub st))
    /\ (image_isStopped (image_sub st) = true ->
        decoded (latest_image (combined st)))
    /\ (mesh_isStopped (mesh_sub st) = true ->
        decoded (latest_mesh (combined st)));
  inv_node :
    forall i m,
      latest_image (combined st) = Some i ->
      latest_mesh (combined st) = Some m ->
      _image (node (combined st)) = object i
      /\ _mesh (node (combined st)) = object m
      /\ _loadStatus (node (combined st)) = sum_status i m;
  inv_next :
    forall n', In (next n') (out (combined st)) ->
      latest_image (combined st) <> None
      /\ latest_mesh (combined st) <> None;
  inv_closed :
    closed (combined st) = true ->
    exists nexts t,
      out (combined st) = nexts ++ [t]
      /\ Forall is_next nexts
      /\ ~ is_next t
      /\ (t = complete ->
          image_isStopped (image_sub st) = true
          /\ mesh_isStopped (mesh_sub st) = true
          /\ decoded (latest_image (combined st))
          /\ decoded (latest_mesh (combined st)))
}.

(** The image element can still report a decode failure: the handlers of
    the element are installed, the subscriber of [cacheImage] is not stopped
    and the subscription is not torn down. *)
Definition decoding (st : Invocation) : Prop :=
  closed (combined st) = false
  /\ image_isStopped (image_sub st) = false
  /\ img_handlers (image_sub st) <> None.

Section CacheFacts.

Variable read : list Byte.byte -> Result IMesh.

Lemma Forall_snoc {A : Type} (P : A -> Prop) (l : list A) (x : A) :
  Forall P l -> P x -> Forall P (l ++ [x]).
Proof. intros. apply Forall_app. split; auto. Qed.

Lemma in_snoc {A : Type} (l : list A) (x y : A) :
  In y (l ++ [x]) -> In y l \/ y = x.
Proof. intros H. apply in_app_or in H. destruct H as [H|[H|[]]]; auto. Qed.

Lemma Inv_cacheAssets (n : Node) : Inv (cacheAssets n).
Proof.
  unfold cacheAssets, cacheImage_subscribe, cacheMesh_subscribe.
  destruct (merged n); simpl.
  - constructor; simpl; try discriminate.
    + intros _. repeat split; auto; discriminate.
    + intros n' [].
  - constructor; simpl; try discriminate.
    + intros _. repeat split; auto; try discriminate.
      intros _. eexists _, _. split; reflexivity.
    + intros n' [].
Qed.

Ltac spec_flags :=
  repeat match goal with
  | H : true = true -> _ |- _ => specialize (H eq_refl)
  | H : false = true -> _ |- _ => clear H
  end;
  try match goal with
  | H : decoded None |- _ =>
      exfalso; destruct H as (? & ? & H & _); discriminate H
  end.

Ltac solve_decoded :=
  solve [assumption | eexists _, _; split; reflexivity].

Ltac solve_open :=
  intros _; repeat apply conj;
  [ first [assumption | apply Forall_snoc; [assumption|exact I]]
  | reflexivity
  | first [discriminate | intros _; solve_decoded]
  | first [discriminate | intros _; solve_decoded] ].

Ltac solve_node :=
  intros xi xm Hxi Hxm;
  first [ discriminate
        | injection Hxi as <-; injection Hxm as <-;
          first [ now eauto | repeat apply conj; reflexivity ] ].

Ltac use_next xn Hin :=
  match goal with H : forall n, In (next n) _ -> _ |- _ =>
    destruct (H xn Hin); split; congruence end.

Ltac solve_next :=
  intros xn Hin;
  first [ split; discriminate
        | use_next xn Hin
        | apply in_snoc in Hin; destruct Hin as [Hin|Hin];
          [use_next xn Hin | discriminate Hin] ].

Ltac solve_closed :=
  intros _; eexists _, _; split; [reflexivity|];
  split; [first [assumption | apply Forall_snoc; [assumption|exact I]]|];
  split; [intros []|];
  first [ discriminate
        | intros _; repeat apply conj; first [reflexivity | solve_decoded] ].

Ltac solve_inv :=
  constructor; simpl;
  [ first [discriminate | solve_open]
  | solve_node
  | solve_next
  | first [discriminate | solve_closed] ].

(** Every browser event preserves the invariant: by cases on the event and
    on the flags of the subscription. *)
Lemma Inv_handle (st : Invocation) (ev : BrowserEvent) :
  Inv st -> Inv (handle read st ev).
Proof.
  intros HI. unfold handle.
  destruct (closed (combined st)) eqn:Hc; [exact HI|].
  destruct HI as [Hopen Hnode Hnext _].
  destruct (Hopen Hc) as (Hout & Hact & Hif & Hmf). clear Hopen.
  destruct st as [r [im h ist] [mx mst] [nd li lm a cl o]].
  simpl in *. subst cl a.
  destruct ev; destruct h, ist, mst, mx, li, lm;
    unfold cacheMesh_event; simpl;
    try match goal with |- context [N.eqb ?a ?b] => destruct (N.eqb a b) end;
    try match goal with |- context [read ?x] => destruct (read x) end;
    simpl; spec_flags.
  all: try solve_inv.
Qed.

Lemma Inv_steps (evs : list BrowserEvent) (st : Invocation) :
  Inv st -> Inv (fold_left (handle read) evs st).
Proof.
  revert st. induction evs as [|ev evs IH]; intros st H; [exact H|].
  simpl. apply IH. now apply Inv_handle.
Qed.

Lemma Inv_run (n : Node) (evs : list BrowserEvent) : Inv (run read n evs).
Proof. apply Inv_steps, Inv_cacheAssets. Qed.

Lemma run_app (n : Node) (pre post : list BrowserEvent) :
  run read n (pre ++ post) = fold_left (handle read) post (run read n pre).
Proof. unfold run. apply fold_left_app. Qed.

(** After [error] or [complete] the subscription no longer changes. *)
Lemma closed_steps (evs : list BrowserEvent) (st : Invocation) :
  closed (combined st) = true -> fold_left (handle read) evs st = st.
Proof.
  intros H. induction evs as [|ev evs IH]; [reflexivity|].
  simpl. unfold handle at 2. now rewrite H.
Qed.

Lemma requests_steps (evs : list BrowserEvent) (st : Invocation) :
  requests (fold_left (handle read) evs st) = requests st.
Proof.
  revert st. induction evs as [|ev evs IH]; intros st; [reflexivity|].
  simpl. rewrite IH. unfold handle.
  destruct (closed (combined st)); [reflexivity|].
  destruct (cacheImage_event (image_sub st) ev) as [isub icalls].
  destruct (Subscriber_calls (image_isStopped isub) icalls).
  destruct (Subscriber_calls (mesh_isStopped (mesh_sub st))
              (cacheMesh_event read (mesh_sub st) ev)).
  reflexivity.
Qed.

Lemma not_next_last {A : Type} (l pre post : list (Notification A))
    (x t : Notification A) :
  Forall is_next l -> ~ is_next x -> pre ++ x :: post = l ++ [t] ->
  post = [].
Proof.
  revert pre. induction l as [|a l IH]; intros pre Hl Hx E.
  - destruct pre as [|b pre]; simpl in E.
    + now injection E.
    + injection E as _ E. now destruct pre.
  - inversion Hl as [|? ? Ha Hl']; subst.
    destruct pre as [|b pre]; simpl in E; injection E as E1 E2.
    + subst. contradiction.
    + now apply (IH pre).
Qed.

Lemma complete_delivered (st : Invocation) :
  Inv st -> In complete (out (combined st)) ->
  image_isStopped (image_sub st) = true
  /\ mesh_isStopped (mesh_sub st) = true
  /\ decoded (latest_image (combined st))
  /\ decoded (latest_mesh (combined st)).
Proof.
  intros [Hopen _ _ Hclosed] Hin.
  destruct (closed (combined st)) eqn:Hc.
  - destruct (Hclosed eq_refl) as (nexts & t & E & Hn & _ & Ht).
    apply Ht. rewrite E in Hin. apply in_snoc in Hin.
    destruct Hin as [Hin|Hin]; [|congruence].
    rewrite Forall_forall in Hn. destruct (Hn _ Hin).
  - destruct (Hopen eq_refl) as (Hn & _).
    rewrite Forall_forall in Hn. destruct (Hn _ Hin).
Qed.

(** The only source of an [error] is [img.onerror] on a subscription that
    is decoding, and the error sent on is the event it was given. *)
Lemma error_handle (st : Invocation) (ev : BrowserEvent) (err : DomEvent) :
  In (error err) (out (combined (handle read st ev))) ->
  In (error err) (out (combined st))
  \/ (ev = img_onerror err /\ decoding st).
Proof.
  unfold handle, decoding.
  destruct (closed (combined st)) eqn:Hc; [now left|].
  destruct st as [r [im h ist] [mx mst] [nd li lm a cl o]].
  simpl in *. subst cl.
  destruct ev; destruct h, ist, mst, mx, li, lm;
    unfold cacheMesh_event; simpl;
    try match goal with |- context [N.eqb ?a ?b] => destruct (N.eqb a b) end;
    try match goal with |- context [read ?x] => destruct (read x) end;
    simpl;
    unfold deliver_image, deliver_mesh, notifyNext_image, notifyNext_mesh,
      notifyError, notifyComplete; simpl;
    try match goal with |- context [Nat.eqb ?a ?b] => destruct (Nat.eqb a b) end;
    simpl; intros Hin; auto;
    repeat (apply in_snoc in Hin; destruct Hin as [Hin|Hin]);
    auto; try discriminate Hin.
  all: injection Hin as <-; right; repeat split; discriminate.
Qed.

Lemma error_steps (evs : list BrowserEvent) (st : Invocation)
    (err : DomEvent) :
  In (error err) (out (combined (fold_left (handle read) evs st))) ->
  In (error err) (out (combined st))
  \/ exists pre post,
       evs = pre ++ img_onerror err :: post
       /\ decoding (fold_left (handle read) pre st).
Proof.
  revert st. induction evs as [|ev evs IH]; intros st H; [now left|].
  simpl in H. apply IH in H. destruct H as [H|(pre & post & E & D)].
  - apply error_handle in H. destruct H as [H|[-> D]]; [now left|].
    right. now exists [], evs.
  - right. exists (ev :: pre), post. split; [|exact D]. simpl. now f_equal.
Qed.

(** A decode failure on a subscription that is decoding is sent on and
    closes the subscription. *)
Lemma handle_img_onerror (st : Invocation) (err : DomEvent) :
  decoding st ->
  out (combined (handle read st (img_onerror err)))
  = out (combined st) ++ [error err]
  /\ closed (combined (handle read st (img_onerror err))) = true.
Proof.
  intros (Hc & Hs & Hh).
  destruct st as [r [im h ist] [mx mst] [nd li lm a cl o]].
  simpl in *. subst cl ist. destruct h as [e|]; [|contradiction].
  unfold handle, cacheMesh_event. simpl.
  destruct mx, mst; simpl; split; reflexivity.
Qed.

(** A progress event of a fetch that is still in progress, once the other
    fetch has reported: the node is yielded with the asset of the fetch in
    progress set to [null]. *)
Lemma image_progress_yields (st : Invocation) (e : ProgressEvent)
    (m : ILoadStatusObject IMesh) :
  closed (combined st) = false ->
  image_isStopped (image_sub st) = false ->
  latest_mesh (combined st) = Some m ->
  let st' := handle read st (image_xhr_onprogress e) in
  out (combined st') = out (combined st) ++ [next (node (combined st'))]
  /\ image (node (combined st')) = None.
Proof.
  intros Hc Hs Hm.
  destruct st as [r [im h ist] [mx mst] [nd li lm a cl o]].
  simpl in *. subst cl ist lm.
  unfold handle, cacheMesh_event. simpl.
  destruct mx, mst; simpl; split; reflexivity.
Qed.

Lemma mesh_progress_yields (st : Invocation) (e : ProgressEvent)
    (i : ILoadStatusObject HTMLImageElement) :
  closed (combined st) = false ->
  mesh_xhr (mesh_sub st) = true ->
  mesh_isStopped (mesh_sub st) = false ->
  latest_image (combined st) = Some i ->
  let st' := handle read st (mesh_xhr_onprogress e) in
  out (combined st') = out (combined st) ++ [next (node (combined st'))]
  /\ mesh (node (combined st')) = None.
Proof.
  intros Hc Hx Hs Hi.
  destruct st as [r [im h ist] [mx mst] [nd li lm a cl o]].
  simpl in *. subst cl mx mst li.
  unfold handle, cacheMesh_event. simpl.
  destruct ist; simpl; split; reflexivity.
Qed.

End CacheFacts.

(** *** Example nodes and events *)

Definition api_unmerged : IAPINavImIm :=
  {| api_key := "A"; api_user := "u"; captured_at := 0;
     merge_version := None; gpano := None |}.

Definition api_merged : IAPINavImIm :=
  {| api_key := "M"; api_user := "u"; captured_at := 0;
     merge_version := Some 1%Z; gpano := None |}.

(** The node that [new Node(0, {lat: 0, lon: 0}, true, undefined, api, [])]
    builds at time [0]. *)
Definition fresh (api : IAPINavImIm) : Node :=
  {| worthy := true; cached := false; lastCacheEvict := 0; lastUsed := 0;
     _apiNavImIm := api; _key := api_key api; _ca := 0%float;
     _latLon := {| lat := 0%float; lon := 0%float |};
     _sequence := undefined; _hs := [];
     _image := None; _mesh := None; _edges := None;
     _loadStatus := {| Graph.loaded := 0; total := 100 |} |}.

Definition one_triangle : IMesh :=
  {| faces := [0%Z; 1%Z; 2%Z]; vertices := [] |}.

Definition read_triangle (_ : list Byte.byte) : Result IMesh :=
  Return one_triangle.

Definition bytes (l t : N) : ProgressEvent := {| e_loaded := l; e_total := t |}.

Definition decode_error : DomEvent := {| event_type := "error" |}.

(** *** The claims on Node *)

(** The claim C3 as the specification states it: whenever the node has been
    yielded, both fetches have reached a terminal state and the node carries
    both decoded assets. *)
Definition yields_only_when_settled
    (read : list Byte.byte -> Result IMesh) (n : Node)
    (evs : list BrowserEvent) : Prop :=
  forall n',
    In (next n') (out (combined (run read n evs))) ->
    image_isStopped (image_sub (run read n evs)) = true
    /\ mesh_isStopped (mesh_sub (run read n evs)) = true
    /\ _image n' <> None
    /\ _mesh n' <> None.

(** C3, counterexample. A node that is not merged, one progress event of the
    image request: the node is yielded with a [null] image while the image
    fetch is still in progress. *)
Lemma yields_during_image_progress :
  ~ yields_only_when_settled read_triangle (fresh api_unmerged)
      [image_xhr_onprogress (bytes 10 100)].
Proof.
  intros H.
  destruct (H _ (or_introl eq_refl)) as (Hstopped & _).
  discriminate Hstopped.
Qed.

(** C3, amended. For every invocation of [cacheAssets()]: when [complete]
    has been delivered, both the image fetch and the mesh fetch have
    completed and the mesh and image fields of the node hold the decoded
    (non-null) assets; the node is yielded only once both fetches have
    reported at least once, and from then on a progress report of a fetch
    that is still in progress yields the node with the asset of that fetch
    set to null; after [error] or [complete] nothing further is delivered. *)
Theorem cacheAssets_completes_after_both :
  forall (read : list Byte.byte -> Result IMesh) (n : Node)
         (evs : list BrowserEvent),
    let st := run read n evs in
    (In complete (out (combined st)) ->
     image_isStopped (image_sub st) = true
     /\ mesh_isStopped (mesh_sub st) = true
     /\ (exists i, image (node (combined st)) = Some i)
     /\ (exists m, mesh (node (combined st)) = Some m))
    /\ (forall n', In (next n') (out (combined st)) ->
        latest_image (combined st) <> None
        /\ latest_mesh (combined st) <> None)
    /\ (forall e m,
        closed (combined st) = false ->
        image_isStopped (image_sub st) = false ->
        latest_mesh (combined st) = Some m ->
        let st' := run read n (evs ++ [image_xhr_onprogress e]) in
        out (combined st') = out (combined st) ++ [next (node (combined st'))]
        /\ image (node (combined st')) = None)
    /\ (forall e i,
        closed (combined st) = false ->
        mesh_xhr (mesh_sub st) = true ->
        mesh_isStopped (mesh_sub st) = false ->
        latest_image (combined st) = Some i ->
        let st' := run read n (evs ++ [mesh_xhr_onprogress e]) in
        out (combined st') = out (combined st) ++ [next (node (combined st'))]
        /\ mesh (node (combined st')) = None)
    /\ (forall pre x post,
        out (combined st) = pre ++ x :: post -> ~ is_next x -> post = []).
Proof.
  intros read n evs st. pose proof (Inv_run read n evs) as HI. fold st in HI.
  split; [|split; [|split; [|split]]].
  - intros Hin.
    destruct (complete_delivered st HI Hin)
      as (Hi & Hm & (i & a & Ei & Oi) & (m & b & Em & Om)).
    destruct (inv_node st HI i m Ei Em) as (Fi & Fm & _).
    unfold image, mesh. rewrite Fi, Fm, Oi, Om. repeat split; eauto.
  - apply (inv_next st HI).
  - intros e m Hc Hs Hm. rewrite run_app. fold st. simpl.
    now apply image_progress_yields with (m := m).
  - intros e i Hc Hx Hs Hi. rewrite run_app. fold st. simpl.
    now apply mesh_progress_yields with (i := i).
  - intros pre x post E Hx.
    destruct (closed (combined st)) eqn:Hc.
    + destruct (inv_closed st HI Hc) as (nexts & t & E' & Hn & _).
      rewrite E' in E. symmetry in E. eapply not_next_last; eassumption.
    + destruct (inv_open st HI Hc) as (Hn & _).
      rewrite E in Hn. apply Forall_app in Hn. destruct Hn as [_ Hn].
      inversion Hn. contradiction.
Qed.

Lemma cacheAssets_completes_after_both_witness :
  let st := run read_triangle (fresh api_merged)
              [mesh_xhr_onprogress (bytes 5 40);
               image_xhr_onload (bytes 100 100) [];
               mesh_xhr_onload 200 (bytes 40 40) [];
               img_onload] in
  image_isStopped (image_sub st) = true
  /\ mesh_isStopped (mesh_sub st) = true
  /\ (exists i, image (node (combined st)) = Some i)
  /\ (exists m, mesh (node (combined st)) = Some m).
Proof.
  apply (cacheAssets_completes_after_both read_triangle (fresh api_merged)).
  simpl. right. left. reflexivity.
Defined.

(** C4. For every successful invocation of [cacheAssets()] (one that has
    delivered [complete]), the load status of the node is the sum of the
    last counts reported by the image fetch and by the mesh fetch, which are
    the reports that carry the decoded assets. *)
Theorem cacheAssets_loadStatus_is_sum :
  forall (read : list Byte.byte -> Result IMesh) (n : Node)
         (evs : list BrowserEvent),
    let st := run read n evs in
    In complete (out (combined st)) ->
    exists i m,
      latest_image (combined st) = Some i
      /\ latest_mesh (combined st) = Some m
      /\ object i <> None
      /\ object m <> None
      /\ Graph.loaded (loadStatus (node (combined st)))
         = Graph.loaded (lso_loaded i) + Graph.loaded (lso_loaded m)
      /\ total (loadStatus (node (combined st)))
         = total (lso_loaded i) + total (lso_loaded m).
Proof.
  intros read n evs st Hin.
  pose proof (Inv_run read n evs) as HI. fold st in HI.
  destruct (complete_delivered st HI Hin)
    as (_ & _ & (i & a & Ei & Oi) & (m & b & Em & Om)).
  destruct (inv_node st HI i m Ei Em) as (_ & _ & Fs).
  exists i, m. unfold loadStatus. rewrite Fs, Oi, Om. simpl.
  repeat split; try assumption; try discriminate; apply N.add_comm.
Qed.

Lemma cacheAssets_loadStatus_is_sum_witness :
  let st := run read_triangle (fresh api_merged)
              [mesh_xhr_onprogress (bytes 5 40);
               image_xhr_onload (bytes 100 100) [];
               mesh_xhr_onload 200 (bytes 40 40) [];
               img_onload] in
  loadStatus (node (combined st)) = {| Graph.loaded := 140; total := 140 |}
  /\ exists i m,
      latest_image (combined st) = Some i
      /\ latest_mesh (combined st) = Some m
      /\ object i <> None
      /\ object m <> None
      /\ Graph.loaded (loadStatus (node (combined st)))
         = Graph.loaded (lso_loaded i) + Graph.loaded (lso_loaded m)
      /\ total (loadStatus (node (combined st)))
         = total (lso_loaded i) + total (lso_loaded m).
Proof.
  split; [reflexivity|].
  apply (cacheAssets_loadStatus_is_sum read_triangle (fresh api_merged)).
  simpl. right. left. reflexivity.
Defined.

(** C5. For every node with [merged == false], the subscription to
    [cacheMesh()] sends, before it returns, the empty mesh with load status
    [0/0] and then [complete]; it sends no request, and no request for the
    mesh is sent later in [cacheAssets()]. *)
Theorem cacheMesh_unmerged_is_immediate :
  forall n : Node,
    merged n = false ->
    cacheMesh_subscribe n
    = ({| mesh_xhr := false; mesh_isStopped := false |},
       [],
       [next {| lso_loaded := {| Graph.loaded := 0; total := 0 |};
                object := Some {| faces := []; vertices := [] |} |};
        complete])
    /\ forall (read : list Byte.byte -> Result IMesh)
              (evs : list BrowserEvent) (r : Request),
         In r (requests (run read n evs)) ->
         url r <> Urls_proto_mesh (key n).
Proof.
  intros n Hm. split.
  - unfold cacheMesh_subscribe. now rewrite Hm.
  - intros read evs r. unfold run. rewrite requests_steps.
    unfold cacheAssets, cacheMesh_subscribe. rewrite Hm. simpl.
    intros [<-|[]]. discriminate.
Qed.

Lemma cacheMesh_unmerged_is_immediate_witness :
  cacheMesh_subscribe (fresh api_unmerged)
  = ({| mesh_xhr := false; mesh_isStopped := false |},
     [],
     [next {| lso_loaded := {| Graph.loaded := 0; total := 0 |};
              object := Some {| faces := []; vertices := [] |} |};
      complete])
  /\ forall (read : list Byte.byte -> Result IMesh)
            (evs : list BrowserEvent) (r : Request),
       In r (requests (run read (fresh api_unmerged) evs)) ->
       url r <> Urls_proto_mesh (key (fresh api_unmerged)).
Proof.
  apply (cacheMesh_unmerged_is_immediate (fresh api_unmerged)).
  reflexivity.
Defined.

(** The claim C6 as the specification states it: the operation fails exactly
    when the image fetch or the image decode fails. The image fetch fails
    when its request raises [error]; the decode fails when the image element
    raises [error]. *)
Definition image_path_fails (evs : list BrowserEvent) : Prop :=
  In image_xhr_onerror evs \/ exists err, In (img_onerror err) evs.

Definition fails (st : Invocation) : Prop :=
  exists err, In (error err) (out (combined st)).

Definition fails_iff_image_path_fails
    (read : list Byte.byte -> Result IMesh) (n : Node)
    (evs : list BrowserEvent) : Prop :=
  fails (run read n evs) <-> image_path_fails evs.

(** C6, counterexample. The image request fails at the transport level:
    the source installs no handler for it, and nothing is delivered. *)
Lemma image_transport_failure_is_silent :
  ~ fails_iff_image_path_fails read_triangle (fresh api_unmerged)
      [image_xhr_onerror].
Proof.
  intros [_ H].
  destruct H as [err Hin].
  - left. left. reflexivity.
  - destruct Hin.
Qed.

(** C6, amended. [cacheAssets()] fails if and only if the image decode
    fails on a subscription that is decoding: the error it delivers is the
    event that [img.onerror] received, unmodified, and nothing follows it; a
    mesh response whose status is not 200 resolves the mesh fetch to the
    empty mesh, and no event of the mesh request makes the operation
    fail. *)
Theorem cacheAssets_fails_on_image_decode_only :
  forall (read : list Byte.byte -> Result IMesh) (n : Node),
    (forall evs err,
       In (error err) (out (combined (run read n evs)))
       <-> exists pre post,
             evs = pre ++ img_onerror err :: post
             /\ decoding (run read n pre))
    /\ (forall pre err post,
          decoding (run read n pre) ->
          out (combined (run read n (pre ++ img_onerror err :: post)))
          = out (combined (run read n pre)) ++ [error err])
    /\ (forall pre status e response,
          let st := run read n pre in
          closed (combined st) = false ->
          mesh_xhr (mesh_sub st) = true ->
          mesh_isStopped (mesh_sub st) = false ->
          status <> 200 ->
          latest_mesh
            (combined (run read n (pre ++ [mesh_xhr_onload status e response])))
          = Some {| lso_loaded := status_of e;
                    object := Some {| faces := []; vertices := [] |} |}).
Proof.
  intros read n.
  assert (Hfail : forall pre err post,
            decoding (run read n pre) ->
            out (combined (run read n (pre ++ img_onerror err :: post)))
            = out (combined (run read n pre)) ++ [error err]).
  { intros pre err post D. rewrite run_app. simpl.
    destruct (handle_img_onerror read _ err D) as [E C].
    now rewrite closed_steps. }
  split; [|split].
  - intros evs err. split.
    + intros Hin. unfold run in Hin.
      apply error_steps in Hin. destruct Hin as [Hin|Hin]; [|exact Hin].
      exfalso.
      unfold cacheAssets, cacheImage_subscribe, cacheMesh_subscribe in Hin.
      destruct (merged n); simpl in Hin; destruct Hin.
    + intros (pre & post & -> & D). rewrite (Hfail pre err post D).
      apply in_or_app. right. now left.
  - exact Hfail.
  - intros pre status e response st Hc Hx Hs Hstatus.
    rewrite run_app. fold st. simpl.
    destruct st as [r [im h ist] [mx mst] [nd li lm a cl o]].
    simpl in *. subst cl mx mst.
    unfold handle, cacheMesh_event. simpl.
    destruct (N.eqb_spec status 200) as [->|_]; [contradiction|].
    simpl. unfold deliver_mesh, notifyNext_mesh, notifyComplete.
    destruct li; simpl; destruct (Nat.eqb (a - 1) 0); reflexivity.
Qed.

Lemma cacheAssets_fails_on_image_decode_only_witness :
  out (combined (run read_triangle (fresh api_unmerged)
                   ([image_xhr_onload (bytes 3 3) []]
                    ++ img_onerror decode_error :: [img_onload])))
  = out (combined (run read_triangle (fresh api_unmerged)
                     [image_xhr_onload (bytes 3 3) []]))
    ++ [error decode_error].
Proof.
  apply (cacheAssets_fails_on_image_decode_only read_triangle
           (fresh api_unmerged)).
  split; [reflexivity|]. split; [reflexivity|]. discriminate.
Defined.

(** The claim C8 as the specification states it. A node has no sequence
    assigned when its sequence is not a [Sequence] object: it is
    [undefined], or it is [null], the value that the constructor accepts
    for it and gives to the fields it does not assign. Both methods are to
    return [null] on such a node. *)
Definition no_sequence (n : Node) : bool :=
  match sequence n with
  | obj _ => false
  | _ => true
  end.

Definition silent_without_sequence (n : Node) : Prop :=
  no_sequence n = true ->
  findNextKeyInSequence n = Return None
  /\ findPrevKeyInSequence n = Return None.

(** C8, counterexample. The node that
    [new Node(0, {lat: 0, lon: 0}, true, null, api, [])] builds has no
    sequence assigned, and both methods throw on it: the guard
    [this.sequence === undefined] lets [null] through to the call
    [this.sequence.findNextKey(this.key)]. *)
Lemma null_sequence_is_not_silent :
  exists n : Node,
    new_Node 0 {| lat := 0; lon := 0 |} true null (obj api_unmerged) [] 0
    = Return n
    /\ no_sequence n = true
    /\ findNextKeyInSequence n = Throw TypeError
    /\ findPrevKeyInSequence n = Throw TypeError
    /\ ~ silent_without_sequence n.
Proof.
  eexists. split; [reflexivity|].
  split; [reflexivity|]. split; [reflexivity|]. split; [reflexivity|].
  intros H. destruct (H eq_refl) as [Hnext _]. discriminate Hnext.
Qed.

(** C8, amended. For every node whose sequence is [undefined] (no sequence
    was passed to the constructor), [findNextKeyInSequence()] and
    [findPrevKeyInSequence()] both return [null], without an exception and
    without a lookup. *)
Theorem no_sequence_no_key :
  forall n : Node,
    sequence n = undefined ->
    findNextKeyInSequence n = Return None
    /\ findPrevKeyInSequence n = Return None.
Proof.
  intros n H. unfold findNextKeyInSequence, findPrevKeyInSequence.
  now rewrite H.
Qed.

Lemma no_sequence_no_key_witness :
  findNextKeyInSequence (fresh api_unmerged) = Return None
  /\ findPrevKeyInSequence (fresh api_unmerged) = Return None.
Proof.
  apply (no_sequence_no_key (fresh api_unmerged)). reflexivity.
Defined.

(** The guard is for [undefined] only: on a node built with a [null]
    sequence both calls throw. *)
Lemma null_sequence_throws (n : Node) :
  sequence n = null ->
  findNextKeyInSequence n = Throw TypeError
  /\ findPrevKeyInSequence n = Throw TypeError.
Proof.
  intros H. unfold findNextKeyInSequence, findPrevKeyInSequence.
  now rewrite H.
Qed.

(** C9. For every node, in every state, [loaded] is true if and only if
    [cached] is true and [image] is not null. *)
Theorem loaded_iff_cached_and_image :
  forall n : Node,
    loaded n = true <-> cached n = true /\ image n <> None.
Proof.
  intros n. unfold loaded, image, not_null.
  destruct (cached n), (_image n); simpl; split;
    try discriminate; try (intros [? ?]; congruence).
  split; [reflexivity|discriminate].
Qed.

(** C10. Every freshly constructed node is not cached and has no assets:
    [cached] is false, [image], [mesh] and [edges] are null,
    [lastCacheEvict] is 0 and [loadStatus] is [{loaded: 0, total: 100}]. *)
Theorem new_Node_is_uncached :
  forall (ca : float) (latLon : ILatLon) (worthy0 : bool)
         (sequence : Ref Sequence) (api : IAPINavImIm) (hs : list string)
         (now : Z),
  exists n : Node,
    new_Node ca latLon worthy0 sequence (obj api) hs now = Return n
    /\ cached n = false
    /\ image n = None
    /\ mesh n = None
    /\ edges n = None
    /\ lastCacheEvict n = 0%Z
    /\ loadStatus n = {| Graph.loaded := 0; total := 100 |}.
Proof.
  intros. eexists. split; [reflexivity|]. repeat split.
Qed.

End NodeFacts.

(** ** Spatial: rotation and its inverse *)

Module SpatialFacts.
Import Spatial.
Local Open Scope R_scope.

Lemma length_negate (a b c : R) :
  length {| x := - a; y := - b; z := - c |}
  = length {| x := a; y := b; z := c |}.
Proof. unfold length. simpl. f_equal. ring. Qed.

Lemma length_sqr (a b c : R) :
  length {| x := a; y := b; z := c |} * length {| x := a; y := b; z := c |}
  = a * a + b * b + c * c.
Proof. unfold length. simpl. apply sqrt_sqrt. nra. Qed.

(** A vector that is not zero is normalized to a unit vector. *)
Lemma normalize_unit (a b c : R) :
  length {| x := a; y := b; z := c |} <> 0 ->
  let n := normalize {| x := a; y := b; z := c |} in
  x n * x n + y n * y n + z n * z n = 1.
Proof.
  intros HL. unfold normalize, divideScalar.
  destruct (Req_dec_T _ 0) as [E|_]; [contradiction|]. simpl.
  pose proof (length_sqr a b c) as H.
  set (L := length {| x := a; y := b; z := c |}) in *.
  replace (a * (1 / L) * (a * (1 / L)) + b * (1 / L) * (b * (1 / L))
           + c * (1 / L) * (c * (1 / L)))
    with ((a * a + b * b + c * c) * (1 / L * (1 / L))) by ring.
  rewrite <- H. now field.
Qed.

(** The rotation about the opposite of a unit axis, by the same angle,
    undoes the rotation. *)
Lemma makeRotationAxis_opposite (n v : Vector3) (angle : R) :
  x n * x n + y n * y n + z n * z n = 1 ->
  applyMatrix4 (applyMatrix4 v (makeRotationAxis n angle))
    (makeRotationAxis {| x := - x n; y := - y n; z := - z n |} angle)
  = v.
Proof.
  destruct n as [nx ny nz], v as [vx vy vz]. simpl. intros Hn.
  pose proof (sin2_cos2 angle) as Hcs. unfold Rsqr in Hcs.
  unfold makeRotationAxis, applyMatrix4. simpl.
  set (c := cos angle) in *. set (s := sin angle) in *.
  f_equal; nsatz.
Qed.

(** C7. For every vector [v] and every angle-axis rotation [r], applying
    [rotate] with [r] and then with the component-wise negation of [r]
    returns [v]: [rotate(rotate(v, r), negate(r)) = v], stated over exact
    arithmetic (the real numbers). *)
Theorem rotate_then_rotate_negated :
  forall v r : number3,
    toArray (rotate (toArray (rotate v r)) (negate r)) = v.
Proof.
  intros [[v0 v1] v2] [[a b] c].
  unfold rotate, rotationMatrix, negate, toArray.
  rewrite length_negate.
  set (L := length {| x := a; y := b; z := c |}).
  destruct (Req_dec_T L 0) as [HL|HL].
  - unfold normalize, divideScalar. rewrite length_negate. fold L.
    destruct (Req_dec_T L 0) as [_|N]; [|contradiction].
    rewrite HL. unfold makeRotationAxis, applyMatrix4. simpl.
    rewrite cos_0, sin_0. f_equal; [f_equal|]; ring.
  - pose proof (normalize_unit a b c HL) as Hn. simpl in Hn.
    assert (E : normalize {| x := - a; y := - b; z := - c |}
                = {| x := - x (normalize {| x := a; y := b; z := c |});
                     y := - y (normalize {| x := a; y := b; z := c |});
                     z := - z (normalize {| x := a; y := b; z := c |}) |}).
    { unfold normalize, divideScalar. rewrite length_negate. fold L.
      destruct (Req_dec_T L 0) as [N|_]; [contradiction|]. simpl.
      f_equal; ring. }
    rewrite E.
    match goal with
    | |- (x ?w, y ?w, z ?w) = _ =>
        replace w with {| x := v0; y := v1; z := v2 |}; [reflexivity|]
    end.
    symmetry.
    set (n := normalize {| x := a; y := b; z := c |}) in *.
    set (w := applyMatrix4 {| x := v0; y := v1; z := v2 |}
                (makeRotationAxis n L)).
    replace {| x := x w; y := y w; z := z w |} with w by now destruct w.
    now apply makeRotationAxis_opposite.
Qed.
End SpatialFacts.

(** ** Spatial: the camera

    As for the round trip above, the statements of this module are over
    exact arithmetic: [Spatial] is embedded over the real numbers, and
    nothing is said here of the rounding or the overflow of the binary64
    computation of the code. *)

Module SpatialCamera.
Import Spatial SpatialFacts.
Local Open Scope R_scope.

Lemma negate_involutive (a : number3) : negate (negate a) = a.
Proof. destruct a as [[a0 a1] a2]. unfold negate. f_equal; [f_equal|]; ring. Qed.

(** X1. The zero rotation leaves every vector where it is: the guard of
    [normalize] against a zero length gives the axis [(0, 0, 0)], and the
    matrix for the angle [0] is the identity. *)
Theorem rotate_zero_rotation :
  forall v : number3, toArray (rotate v (0, 0, 0)) = v.
Proof.
  intros [[v0 v1] v2]. unfold rotate, rotationMatrix, normalize, divideScalar.
  assert (L : length {| x := 0; y := 0; z := 0 |} = 0).
  { unfold length. simpl. replace (0 * 0 + 0 * 0 + 0 * 0) with 0 by ring. apply sqrt_0. }
  rewrite L. destruct (Req_dec_T 0 0) as [_|N]; [|contradiction].
  unfold makeRotationAxis, applyMatrix4, toArray. simpl.
  rewrite cos_0, sin_0. f_equal; [f_equal|]; ring.
Qed.

Lemma makeRotationAxis_isometry (n v : Vector3) (angle : R) :
  x n * x n + y n * y n + z n * z n = 1 ->
  let w := applyMatrix4 v (makeRotationAxis n angle) in
  x w * x w + y w * y w + z w * z w = x v * x v + y v * y v + z v * z v.
Proof.
  destruct n as [nx ny nz], v as [vx vy vz]. simpl. intros Hn.
  pose proof (sin2_cos2 angle) as Hcs. unfold Rsqr in Hcs.
  set (c := cos angle) in *. set (s := sin angle) in *.
  nsatz.
Qed.

(** [rotate] keeps the sum of the squares of the coordinates: the zero
    triple gives the identity, and any other triple a rotation about a unit
    axis. *)
Lemma rotate_isometry (v r : number3) :
  let w := rotate v r in
  x w * x w + y w * y w + z w * z w
  = fst (fst v) * fst (fst v) + snd (fst v) * snd (fst v) + snd v * snd v.
Proof.
  destruct v as [[v0 v1] v2], r as [[a b] c]. simpl.
  unfold rotate, rotationMatrix.
  set (L := length {| x := a; y := b; z := c |}).
  destruct (Req_dec_T L 0) as [HL|HL].
  - unfold normalize, divideScalar. fold L.
    destruct (Req_dec_T L 0) as [_|N]; [|contradiction].
    rewrite HL. unfold makeRotationAxis, applyMatrix4. simpl.
    rewrite cos_0, sin_0. ring.
  - pose proof (normalize_unit a b c HL) as Hn. simpl in Hn.
    exact (makeRotationAxis_isometry
             (normalize {| x := a; y := b; z := c |})
             {| x := v0; y := v1; z := v2 |} L Hn).
Qed.

(** X2. Stated over exact arithmetic (the real numbers in place of
    binary64, as for C7): [rotate] preserves the length of a vector, for
    every angle-axis triple. Nothing is claimed of the rounded computation
    of the code. *)
Theorem rotate_preserves_length :
  forall v r : number3,
    length (rotate v r)
    = length {| x := fst (fst v); y := snd (fst v); z := snd v |}.
Proof.
  intros v r. unfold length. cbn [x y z]. f_equal.
  exact (rotate_isometry v r).
Qed.

(** The rotation by [negate r] is a right inverse of the rotation by [r] as
    well: with [negate] an involution, it is enough that the rotation about
    the opposite axis undoes the rotation, for the triple [negate r]. *)
Lemma rotate_negated_then_rotate (v r : number3) :
  toArray (rotate (toArray (rotate v (negate r))) r) = v.
Proof.
  rewrite <- (negate_involutive r) at 2.
  generalize (negate r). clear r. revert v.
  intros [[v0 v1] v2] [[a b] c].
  unfold rotate, rotationMatrix, negate, toArray.
  rewrite length_negate.
  set (L := length {| x := a; y := b; z := c |}).
  destruct (Req_dec_T L 0) as [HL|HL].
  - unfold normalize, divideScalar. rewrite length_negate. fold L.
    destruct (Req_dec_T L 0) as [_|N]; [|contradiction].
    rewrite HL. unfold makeRotationAxis, applyMatrix4. simpl.
    rewrite cos_0, sin_0. f_equal; [f_equal|]; ring.
  - pose proof (normalize_unit a b c HL) as Hn. simpl in Hn.
    assert (E : normalize {| x := - a; y := - b; z := - c |}
                = {| x := - x (normalize {| x := a; y := b; z := c |});
                     y := - y (normalize {| x := a; y := b; z := c |});
                     z := - z (normalize {| x := a; y := b; z := c |}) |}).
    { unfold normalize, divideScalar. rewrite length_negate. fold L.
      destruct (Req_dec_T L 0) as [N|_]; [contradiction|]. simpl.
      f_equal; ring. }
    rewrite E.
    match goal with
    | |- (x ?w, y ?w, z ?w) = _ =>
        replace w with {| x := v0; y := v1; z := v2 |}; [reflexivity|]
    end.
    symmetry.
    set (n := normalize {| x := a; y := b; z := c |}) in *.
    set (w := applyMatrix4 {| x := v0; y := v1; z := v2 |}
                (makeRotationAxis n L)).
    replace {| x := x w; y := y w; z := z w |} with w by now destruct w.
    now apply makeRotationAxis_opposite.
Qed.

(** X3. Stated over exact arithmetic (the real numbers in place of
    binary64, as for C7): the optical center is the point that the pose maps
    to the origin, that is, rotating [opticalCenter(rotation, translation)]
    by [rotation] and adding [translation] gives the zero vector. Nothing is
    claimed of the rounded computation of the code. *)
Theorem opticalCenter_maps_to_origin :
  forall rotation translation : number3,
    let C := toArray (opticalCenter rotation translation) in
    let '(t0, t1, t2) := translation in
    x (rotate C rotation) + t0 = 0
    /\ y (rotate C rotation) + t1 = 0
    /\ z (rotate C rotation) + t2 = 0.
Proof.
  intros rotation [[t0 t1] t2]. unfold opticalCenter.
  pose proof (rotate_negated_then_rotate (negate (t0, t1, t2)) rotation) as H.
  unfold toArray in H at 1. simpl negate in H at 2.
  injection H as Hx Hy Hz. simpl. rewrite Hx, Hy, Hz. repeat split; ring.
Qed.

(** X4. Stated over exact arithmetic (the real numbers in place of
    binary64, as for C7): the viewing direction is a unit vector, and
    [rotation] turns it into the forward axis [(0, 0, 1)] of the camera.
    Nothing is claimed of the rounded computation of the code. *)
Theorem viewingDirection_is_unit_forward :
  forall rotation : number3,
    length (viewingDirection rotation) = 1
    /\ toArray (rotate (toArray (viewingDirection rotation)) rotation)
       = (0, 0, 1).
Proof.
  intros rotation. unfold viewingDirection. split.
  - unfold length. rewrite rotate_isometry. simpl.
    replace (0 * 0 + 0 * 0 + 1 * 1) with 1 by ring. apply sqrt_1.
  - apply rotate_negated_then_rotate.
Qed.

Theorem rotate_linear :
  forall (v w r : number3) (k : R),
    let '(v0, v1, v2) := v in
    let '(w0, w1, w2) := w in
    toArray (rotate (k * v0 + w0, k * v1 + w1, k * v2 + w2) r)
    = (k * x (rotate v r) + x (rotate w r),
       k * y (rotate v r) + y (rotate w r),
       k * z (rotate v r) + z (rotate w r)).
Proof.
  intros [[v0 v1] v2] [[w0 w1] w2] [[a b] c] k.
  unfold rotate, rotationMatrix.
  set (L := length {| x := a; y := b; z := c |}).
  set (n := normalize {| x := a; y := b; z := c |}).
  unfold makeRotationAxis, applyMatrix4, toArray. simpl.
  f_equal; [f_equal|]; ring.
Qed.
End SpatialCamera.

(** ** The key handlers *)

Module KeyboardHandlers.
Import Number NumberFacts Js Edge Node Keyboard KeyboardFacts.
Local Open Scope float_scope.

(** The four arrow keys. *)
Definition arrow (k : Z) : Prop := k = 37%Z \/ k = 38%Z \/ k = 39%Z \/ k = 40%Z.

Ltac key_bits p :=
  do 7 (try (destruct p as [p|p|]; try reflexivity; try congruence)).

Lemma panoramaKey_other (event : KeyboardEvent) (phi : float) :
  ~ arrow (keyCode event) -> panoramaKey event phi = None.
Proof.
  unfold arrow, panoramaKey. intros H.
  destruct (keyCode event) as [|p|p]; try reflexivity.
  key_bits p; exfalso; apply H; auto.
Qed.

Lemma perspectiveKey_other (event : KeyboardEvent) :
  ~ arrow (keyCode event) -> perspectiveKey event = None.
Proof.
  unfold arrow, perspectiveKey. intros H.
  destruct (keyCode event) as [|p|p]; try reflexivity.
  key_bits p; exfalso; apply H; auto.
Qed.

(** *** Example nodes *)

Import Graph.

Local Open Scope string_scope.

Definition api_pano : IAPINavImIm :=
  {| api_key := "P"; api_user := "u"; captured_at := 0;
     merge_version := None;
     gpano := Some {| CroppedAreaLeftPixels := Some 0%Z;
                      CroppedAreaTopPixels := Some 0%Z;
                      CroppedAreaImageWidthPixels := Some 4000%Z;
                      CroppedAreaImageHeightPixels := Some 2000%Z;
                      FullPanoWidthPixels := Some 4000%Z;
                      FullPanoHeightPixels := Some 2000%Z |} |}.

Definition crossing : list IEdge :=
  [edge "ahead" StepForward 5; edge "left" StepLeft 95;
   edge "next" Next 0; edge "pano" Pano 20].

Definition perspective_node : Node :=
  set_edges (NodeFacts.fresh NodeFacts.api_unmerged) crossing.

Definition pano_node : Node :=
  set_edges (NodeFacts.fresh api_pano) crossing.

Definition press (code : Z) (shift alt : bool) : KeyboardEvent :=
  {| keyCode := code; shiftKey := shift; altKey := alt |}.

Local Open Scope float_scope.

(** X5. A key that is not an arrow key is left alone, in both modes: the
    default action is not prevented, no move is issued, and nothing is
    thrown, whatever the node. *)
Theorem keydown_ignores_other_keys :
  forall (wrapAngle : float -> float) (event : KeyboardEvent) (node : Node)
         (phi : float),
    keyCode event <> 37%Z -> keyCode event <> 38%Z ->
    keyCode event <> 39%Z -> keyCode event <> 40%Z ->
    keydown wrapAngle event node phi = done [].
Proof.
  intros wrapAngle event node phi H37 H38 H39 H40.
  assert (H : ~ arrow (keyCode event)) by (unfold arrow; tauto).
  unfold keydown, _navigatePerspective, _navigatePanorama.
  rewrite (panoramaKey_other event phi H), (perspectiveKey_other event H).
  now destruct (pano node).
Qed.

Lemma keydown_ignores_other_keys_witness :
  keydown unwrapped (press 13 false false)
    (NodeFacts.fresh NodeFacts.api_unmerged) 0
  = done [].
Proof.
  apply keydown_ignores_other_keys; simpl; lia.
Defined.

Definition step_direction (d : EdgeDirection) : Prop :=
  d = StepLeft \/ d = StepForward \/ d = StepRight \/ d = StepBackward.

(** What the [switch] of [_navigatePanorama] can set: a sequence direction
    ([Next] or [Prev]) and no step direction, or no sequence direction and at
    most a step direction. *)
Lemma panoramaKey_shape (event : KeyboardEvent) (phi nav : float)
    (sd qd : option EdgeDirection) :
  panoramaKey event phi = Some (nav, sd, qd) ->
  (qd = None /\ (sd = None \/ exists d, sd = Some d /\ step_direction d))
  \/ (sd = None /\ (qd = Some Next \/ qd = Some Prev)).
Proof.
  unfold panoramaKey, step_direction.
  destruct (keyCode event) as [|p|p]; try discriminate.
  do 7 (try (destruct p as [p|p|]; try discriminate)).
  all: destruct (shiftKey event), (altKey event); simpl;
    intros H; injection H as <- <- <-; eauto 10.
Qed.

Lemma panoramaTarget_edge (wrapAngle : float -> float) (es : list IEdge)
    (d : EdgeDirection) (nav : float) (k : string) :
  panoramaTarget wrapAngle es d nav = Some k ->
  exists e, In e es /\ to e = k /\ candidate d e = true.
Proof.
  unfold panoramaTarget.
  destruct (nearest_spec wrapAngle (wrapAngle nav) (filter (candidate d) es))
    as [[E _]|(e & He & E & _)]; rewrite E; simpl; intros H;
    [discriminate|].
  injection H as <-. apply filter_In in He. destruct He as [He Hc].
  now exists e.
Qed.

Lemma moveDir_edge (d : EdgeDirection) (es : list IEdge) :
  existsb (fun edge => EdgeDirection_eqb (direction (data edge)) d) es = true ->
  exists e, In e es /\ direction (data e) = d.
Proof.
  intros H. apply existsb_exists in H. destruct H as (e & He & Hd).
  exists e. split; [exact He|]. now apply EdgeDirection_eqb_eq.
Qed.

(** The commands a handler may issue on a node with the edges [es]. *)
Definition along_edges (panorama : bool) (es : list IEdge) (c : Command)
    : Prop :=
  match c with
  | preventDefault => True
  | moveDir d =>
      (exists e, In e es /\ direction (data e) = d)
      /\ (panorama = true -> d = Next \/ d = Prev)
  | moveToKey k =>
      panorama = true
      /\ exists e, In e es /\ to e = k
           /\ (direction (data e) = Pano \/ step_direction (direction (data e)))
  end.

(** X6. On a node whose edges are assigned, a key event throws nothing and
    every move follows an edge of the node: [moveDir] is issued only for a
    direction that one of the edges has (and, on a panorama, only for [Next]
    and [Prev]), and [moveToKey] only on a panorama, to the target of an edge
    whose direction is [Pano] or a step direction. *)
Theorem keydown_moves_along_edges :
  forall (wrapAngle : float -> float) (event : KeyboardEvent) (node : Node)
         (phi : float) (es : list IEdge),
    edges node = Some es ->
    thrown (keydown wrapAngle event node phi) = None
    /\ forall c, In c (issued (keydown wrapAngle event node phi)) ->
                 along_edges (pano node) es c.
Proof.
  intros wrapAngle event node phi es He. unfold keydown.
  destruct (pano node) eqn:Hp; simpl.
  - unfold _navigatePanorama.
    destruct (panoramaKey event phi) as [[[nav sd] qd]|] eqn:Hk;
      [|split; [reflexivity|intros c []]].
    destruct (panoramaKey_shape _ _ _ _ _ Hk)
      as [[-> [->|(d & -> & Hd)]]|[-> [->| ->]]]; simpl.
    + split; [reflexivity|]. intros c [<-|[]]. exact I.
    + rewrite He. simpl. split; [reflexivity|]. intros c [<-|Hc]; [exact I|].
      unfold navigateStep in Hc.
      destruct (panoramaTarget wrapAngle es d nav) as [k|] eqn:Ht;
        [|destruct Hc].
      destruct Hc as [<-|[]]. simpl. split; [reflexivity|].
      destruct (panoramaTarget_edge _ _ _ _ _ Ht) as (e & Hin & Hto & Hc).
      exists e. split; [exact Hin|]. split; [exact Hto|].
      apply candidate_iff in Hc. destruct Hc as [Hc|Hc]; [right|now left].
      now rewrite Hc.
    + rewrite He. destruct (existsb _ es) eqn:Hx; simpl;
        (split; [reflexivity|]); intros c [<-|Hc]; try exact I;
        [|destruct Hc].
      destruct Hc as [<-|[]]. simpl. split; [|auto].
      now apply moveDir_edge.
    + rewrite He. destruct (existsb _ es) eqn:Hx; simpl;
        (split; [reflexivity|]); intros c [<-|Hc]; try exact I;
        [|destruct Hc].
      destruct Hc as [<-|[]]. simpl. split; [|auto].
      now apply moveDir_edge.
  - unfold _navigatePerspective.
    destruct (perspectiveKey event) as [[d|]|];
      [| split; [reflexivity|]; intros c [<-|[]]; exact I
       | split; [reflexivity|intros c []] ].
    simpl. rewrite He. destruct (existsb _ es) eqn:Hx; simpl;
      (split; [reflexivity|]); intros c [<-|Hc]; try exact I;
      [|destruct Hc].
    destruct Hc as [<-|[]]. simpl. split; [|discriminate].
    now apply moveDir_edge.
Qed.

Lemma keydown_moves_along_edges_witness :
  thrown (keydown unwrapped (press 38 false false) pano_node 0) = None
  /\ forall c,
       In c (issued (keydown unwrapped (press 38 false false) pano_node 0)) ->
       along_edges (pano pano_node) crossing c.
Proof.
  apply (keydown_moves_along_edges unwrapped (press 38 false false) pano_node 0
           crossing).
  reflexivity.
Defined.

(** X7. An arrow key always prevents the default action, first and once,
    and is followed by at most one move: also with shift or alt held, when no
    direction is chosen, and on a node without edges. *)
Theorem keydown_prevents_default_then_moves_once :
  forall (wrapAngle : float -> float) (event : KeyboardEvent) (node : Node)
         (phi : float),
    arrow (keyCode event) ->
    exists rest,
      issued (keydown wrapAngle event node phi) = preventDefault :: rest
      /\ (List.length rest <= 1)%nat
      /\ ~ In preventDefault rest.
Proof.
  intros wrapAngle event node phi Hk. unfold keydown.
  assert (Hpan : exists nav sd qd, panoramaKey event phi = Some (nav, sd, qd)).
  { unfold panoramaKey, arrow in *.
    destruct Hk as [E|[E|[E|E]]]; rewrite E;
      destruct (shiftKey event), (altKey event); simpl; eauto. }
  assert (Hper : exists d, perspectiveKey event = Some d).
  { unfold perspectiveKey, arrow in *.
    destruct Hk as [E|[E|[E|E]]]; rewrite E;
      destruct (altKey event); simpl; eauto. }
  assert (Hmove : forall d, exists rest,
            issued (_moveDir d node) = rest /\ (List.length rest <= 1)%nat
            /\ ~ In preventDefault rest).
  { intros d. eexists. split; [reflexivity|]. unfold _moveDir.
    destruct d as [d|]; [|simpl; split; [lia|tauto]].
    destruct (edges node) as [es|]; [|simpl; split; [lia|tauto]].
    destruct (existsb _ es); simpl; split; try lia; try tauto.
    intros [H|[]]. discriminate H. }
  destruct (pano node).
  - destruct Hpan as (nav & sd & qd & E). unfold _navigatePanorama.
    rewrite E. simpl.
    destruct qd as [q|].
    + destruct (Hmove (Some q)) as (rest & <- & H1 & H2). eauto.
    + destruct sd as [d|]; [|exists []; simpl; split; [reflexivity|split; [lia|tauto]]].
      destruct (edges node) as [es|];
        [|exists []; simpl; split; [reflexivity|split; [lia|tauto]]].
      simpl. eexists. split; [reflexivity|]. unfold navigateStep.
      destruct (panoramaTarget wrapAngle es d nav); simpl; split; try lia;
        try tauto.
      intros [H|[]]. discriminate H.
  - destruct Hper as (d & E). unfold _navigatePerspective. rewrite E. simpl.
    destruct (Hmove d) as (rest & <- & H1 & H2). eauto.
Qed.

Lemma keydown_prevents_default_then_moves_once_witness :
  exists rest,
    issued (keydown unwrapped (press 37 true false) pano_node 0)
    = preventDefault :: rest
    /\ (List.length rest <= 1)%nat
    /\ ~ In preventDefault rest.
Proof.
  apply keydown_prevents_default_then_moves_once.
  left. reflexivity.
Defined.

(** X8. On a node whose edges are not assigned yet ([edges] is [null]), a
    plain arrow key prevents the default action and then throws a
    [TypeError], in both modes. *)
Theorem keydown_without_edges_throws :
  forall (wrapAngle : float -> float) (event : KeyboardEvent) (node : Node)
         (phi : float),
    arrow (keyCode event) ->
    shiftKey event = false ->
    altKey event = false ->
    edges node = None ->
    keydown wrapAngle event node phi = failed [preventDefault].
Proof.
  intros wrapAngle event node phi Hk Hs Ha He.
  unfold keydown, _navigatePanorama, _navigatePerspective, panoramaKey,
    perspectiveKey, _moveDir, arrow in *.
  destruct Hk as [E|[E|[E|E]]]; rewrite E, Hs, Ha; simpl; rewrite He;
    now destruct (pano node).
Qed.

Lemma keydown_without_edges_throws_witness :
  keydown unwrapped (press 40 false false)
    (NodeFacts.fresh NodeFacts.api_unmerged) 0
  = failed [preventDefault].
Proof.
  apply keydown_without_edges_throws.
  - right. right. right. reflexivity.
  - reflexivity.
  - reflexivity.
  - reflexivity.
Defined.

(** X9. An edge whose absolute wrapped difference to the desired angle is
    not strictly below [Math.PI / 4] (or is [NaN]) has no influence: the
    selection is the same with and without it, wherever it stands in the
    edge list. *)
Theorem panoramaTarget_ignores_far_edges :
  forall (wrapAngle : float -> float) (l1 l2 : list IEdge) (e : IEdge)
         (stepDirection : EdgeDirection) (navigationAngle : float),
    (Math_abs (wrapAngle (worldMotionAzimuth (data e)
                          - wrapAngle navigationAngle))
     <? Math_PI / 4) = false ->
    panoramaTarget wrapAngle (l1 ++ e :: l2) stepDirection navigationAngle
    = panoramaTarget wrapAngle (l1 ++ l2) stepDirection navigationAngle.
Proof.
  intros wrapAngle l1 l2 e d nav H. unfold panoramaTarget.
  rewrite !filter_app. simpl.
  destruct (candidate d e); [|reflexivity].
  unfold nearest. rewrite !fold_left_app. simpl.
  destruct (fold_left _ (filter (candidate d) l1) _) as [s k].
  rewrite visit_eq.
  change (angleTo wrapAngle (wrapAngle nav) e <? threshold) with
    (Math_abs (wrapAngle (worldMotionAzimuth (data e) - wrapAngle nav))
     <? Math_PI / 4).
  now rewrite H, andb_false_r.
Qed.

Lemma panoramaTarget_ignores_far_edges_witness :
  panoramaTarget unwrapped
    ([edge "a" StepForward 20] ++ edge "far" StepForward 170
       :: [edge "b" StepForward 10])
    StepForward 0
  = panoramaTarget unwrapped
      ([edge "a" StepForward 20] ++ [edge "b" StepForward 10])
      StepForward 0.
Proof.
  apply panoramaTarget_ignores_far_edges. reflexivity.
Defined.

End KeyboardHandlers.

(** ** More of the asset cache *)

Module NodeCache.
Import Js Edge Graph Node NodeFacts.
Local Open Scope N_scope.

(** The fields of a node that the asset cache leaves alone. *)
Definition same_metadata (n n' : Node) : Prop :=
  worthy n' = worthy n
  /\ cached n' = cached n
  /\ lastCacheEvict n' = lastCacheEvict n
  /\ lastUsed n' = lastUsed n
  /\ apiNavImIm n' = apiNavImIm n
  /\ key n' = key n
  /\ ca n' = ca n
  /\ latLon n' = latLon n
  /\ sequence n' = sequence n
  /\ hs n' = hs n
  /\ edges n' = edges n.

Section More.

Variable read : list Byte.byte -> Result IMesh.

Ltac cases_of_handle st ev :=
  destruct st as [r [im h ist] [mx mst] [nd li lm a cl o]];
  simpl in *; subst;
  destruct ev; destruct h, ist, mst, mx, li, lm;
  unfold cacheMesh_event; simpl;
  try match goal with |- context [N.eqb ?a ?b] => destruct (N.eqb a b) eqn:? end;
  try match goal with |- context [read ?x] => destruct (read x) eqn:? end;
  simpl;
  unfold deliver_image, deliver_mesh, notifyNext_image, notifyNext_mesh,
    notifyError, notifyComplete; simpl;
  try match goal with |- context [Nat.eqb ?a ?b] => destruct (Nat.eqb a b) end;
  simpl.

Lemma same_metadata_refl (n : Node) : same_metadata n n.
Proof. now repeat split. Qed.

Lemma same_metadata_handle (n : Node) (st : Invocation) (ev : BrowserEvent) :
  same_metadata n (node (combined st)) ->
  same_metadata n (node (combined (handle read st ev))).
Proof.
  unfold handle. destruct (closed (combined st)) eqn:Hc; [auto|].
  intros H. cases_of_handle st ev; exact H.
Qed.

Lemma same_metadata_steps (n : Node) (evs : list BrowserEvent)
    (st : Invocation) :
  same_metadata n (node (combined st)) ->
  same_metadata n (node (combined (fold_left (handle read) evs st))).
Proof.
  revert st. induction evs as [|ev evs IH]; intros st H; [exact H|].
  simpl. apply IH. now apply same_metadata_handle.
Qed.

Lemma node_cacheAssets (n : Node) :
  same_metadata n (node (combined (cacheAssets n))).
Proof.
  unfold cacheAssets, cacheImage_subscribe, cacheMesh_subscribe.
  destruct (merged n); simpl; apply same_metadata_refl.
Qed.

(** X10. [cacheAssets()] writes the image, the mesh and the load status
    only: whatever the events, [cached], [worthy], the key, the edges, the
    sequence, the timestamps and the other metadata of the node stay as they
    were. In particular it never sets [cached], so a node that was not
    cached is not [loaded] when the operation completes. *)
Theorem cacheAssets_keeps_metadata :
  forall (n : Node) (evs : list BrowserEvent),
    let n' := node (combined (run read n evs)) in
    same_metadata n n'
    /\ (cached n = false -> loaded n' = false).
Proof.
  intros n evs n'.
  assert (H : same_metadata n n')
    by apply same_metadata_steps, node_cacheAssets.
  split; [exact H|].
  intros Hc. unfold loaded. destruct H as (_ & -> & _). now rewrite Hc.
Qed.


(** X11. One invocation of [cacheAssets()] sends one request for the image,
    of the panorama size exactly when the node is a full panorama, and one
    request for the mesh exactly when the node is merged; no event makes it
    send another. *)
Theorem cacheAssets_requests :
  forall (n : Node) (evs : list BrowserEvent),
    requests (run read n evs)
    = {| method := "GET";
         url := Urls_image (key n)
                  (if fullPano n then basePanoramaSize else baseImageSize) |}
      :: (if merged n
          then [{| method := "GET"; url := Urls_proto_mesh (key n) |}]
          else []).
Proof.
  intros n evs. unfold run. rewrite requests_steps.
  unfold cacheAssets, cacheImage_subscribe, cacheMesh_subscribe.
  now destruct (merged n).
Qed.

(** A transport error of either request changes nothing. *)
Lemma handle_xhr_onerror (st : Invocation) (ev : BrowserEvent) :
  ev = image_xhr_onerror \/ ev = mesh_xhr_onerror ->
  handle read st ev = st.
Proof.
  intros [-> | ->]; unfold handle;
    destruct st as [r [im h ist] [mx mst] [nd li lm a cl o]]; simpl;
    destruct cl; try reflexivity;
    unfold cacheMesh_event; simpl; destruct mx, mst, ist; reflexivity.
Qed.

(** X12. The [error] event of either request is ignored: the subscription
    is in the same state with and without it, at any place among the
    events. *)
Theorem transport_errors_are_ignored :
  forall (n : Node) (pre post : list BrowserEvent) (ev : BrowserEvent),
    ev = image_xhr_onerror \/ ev = mesh_xhr_onerror ->
    run read n (pre ++ ev :: post) = run read n (pre ++ post).
Proof.
  intros n pre post ev H. rewrite !run_app. simpl.
  now rewrite handle_xhr_onerror.
Qed.

Lemma terminated_closed (st : Invocation) :
  Inv st ->
  In complete (out (combined st))
  \/ (exists err, In (error err) (out (combined st))) ->
  closed (combined st) = true.
Proof.
  intros HI H. destruct (closed (combined st)) eqn:Hc; [reflexivity|].
  destruct (inv_open st HI Hc) as (Hn & _). rewrite Forall_forall in Hn.
  destruct H as [H|[err H]]; destruct (Hn _ H).
Qed.

(** X13. Once [complete] or [error] has been delivered, the events that
    follow change nothing: neither the node nor what has been delivered. *)
Theorem nothing_changes_after_termination :
  forall (n : Node) (pre post : list BrowserEvent),
    In complete (out (combined (run read n pre)))
    \/ (exists err, In (error err) (out (combined (run read n pre)))) ->
    run read n (pre ++ post) = run read n pre.
Proof.
  intros n pre post H. rewrite run_app. apply closed_steps.
  apply terminated_closed; [apply Inv_run|exact H].
Qed.

(** Where a decoded value of a source comes from. *)
Lemma img_handlers_handle (st : Invocation) (ev : BrowserEvent) :
  img_handlers (image_sub (handle read st ev)) <> None ->
  img_handlers (image_sub st) <> None
  \/ exists e response, ev = image_xhr_onload e response.
Proof.
  unfold handle. destruct (closed (combined st)) eqn:Hc; [auto|].
  cases_of_handle st ev; intros H; eauto; try (left; discriminate).
Qed.

Lemma decoded_image_handle (st : Invocation) (ev : BrowserEvent) :
  decoded (latest_image (combined (handle read st ev))) ->
  decoded (latest_image (combined st))
  \/ (ev = img_onload /\ img_handlers (image_sub st) <> None).
Proof.
  unfold handle. destruct (closed (combined st)) eqn:Hc; [auto|].
  cases_of_handle st ev; intros H; auto;
    try (right; split; [reflexivity|discriminate]);
    destruct H as (v & x & Hv & Hx); injection Hv as <-; discriminate Hx.
Qed.

Lemma decoded_mesh_handle (st : Invocation) (ev : BrowserEvent) :
  decoded (latest_mesh (combined (handle read st ev))) ->
  decoded (latest_mesh (combined st))
  \/ exists status e response,
       ev = mesh_xhr_onload status e response
       /\ (status <> 200 \/ exists m, read response = Return m).
Proof.
  unfold handle. destruct (closed (combined st)) eqn:Hc; [auto|].
  cases_of_handle st ev; intros H; auto;
    try (right; do 3 eexists; split; [reflexivity|];
         first [ right; eexists; eassumption
               | left; now apply N.eqb_neq ]);
    destruct H as (v & x & Hv & Hx); injection Hv as <-; discriminate Hx.
Qed.

Lemma img_handlers_run (n : Node) (evs : list BrowserEvent) :
  img_handlers (image_sub (run read n evs)) <> None ->
  exists e response, In (image_xhr_onload e response) evs.
Proof.
  induction evs as [|ev evs IH] using rev_ind.
  - unfold run, cacheAssets, cacheImage_subscribe, cacheMesh_subscribe. simpl.
    destruct (merged n); simpl; congruence.
  - rewrite run_app. simpl. intros H. apply img_handlers_handle in H.
    destruct H as [H|(e & response & ->)].
    + destruct (IH H) as (e & response & Hin).
      exists e, response. apply in_or_app. now left.
    + exists e, response. apply in_or_app. right. now left.
Qed.

Lemma decoded_image_run (n : Node) (evs : list BrowserEvent) :
  decoded (latest_image (combined (run read n evs))) ->
  In img_onload evs /\ exists e response, In (image_xhr_onload e response) evs.
Proof.
  induction evs as [|ev evs IH] using rev_ind.
  - unfold run, cacheAssets, cacheImage_subscribe, cacheMesh_subscribe. simpl.
    destruct (merged n); simpl; intros (v & x & Hv & _); discriminate Hv.
  - rewrite run_app. simpl. intros H. apply decoded_image_handle in H.
    destruct H as [H|[-> H]].
    + destruct (IH H) as (H1 & e & response & H2).
      split; [apply in_or_app; now left|].
      exists e, response. apply in_or_app. now left.
    + split; [apply in_or_app; right; now left|].
      destruct (img_handlers_run n evs H) as (e & response & Hin).
      exists e, response. apply in_or_app. now left.
Qed.

Lemma decoded_mesh_run (n : Node) (evs : list BrowserEvent) :
  decoded (latest_mesh (combined (run read n evs))) ->
  merged n = false
  \/ exists status e response,
       In (mesh_xhr_onload status e response) evs
       /\ (status <> 200 \/ exists m, read response = Return m).
Proof.
  induction evs as [|ev evs IH] using rev_ind.
  - unfold run, cacheAssets, cacheImage_subscribe, cacheMesh_subscribe. simpl.
    destruct (merged n); simpl; [|now left].
    intros (v & x & Hv & _). discriminate Hv.
  - rewrite run_app. simpl. intros H. apply decoded_mesh_handle in H.
    destruct H as [H|(status & e & response & -> & H)].
    + destruct (IH H) as [Hm|(status & e & response & Hin & Hs)];
        [now left|].
      right. exists status, e, response. split; [|exact Hs].
      apply in_or_app. now left.
    + right. exists status, e, response. split; [|exact H].
      apply in_or_app. right. now left.
Qed.

(** X14. [cacheAssets()] completes only if the image request has loaded and
    the image element has decoded it and, for a merged node, only if the mesh
    request has loaded with a status other than 200 or with a payload that
    the decoder accepts. A payload on which the decoder throws, or a request
    that never loads, leaves the operation pending. *)
Theorem completion_needs_both_assets :
  forall (n : Node) (evs : list BrowserEvent),
    In complete (out (combined (run read n evs))) ->
    In img_onload evs
    /\ (exists e response, In (image_xhr_onload e response) evs)
    /\ (merged n = true ->
        exists status e response,
          In (mesh_xhr_onload status e response) evs
          /\ (status <> 200 \/ exists m, read response = Return m)).
Proof.
  intros n evs Hin.
  destruct (complete_delivered _ (Inv_run read n evs) Hin)
    as (_ & _ & Hi & Hm).
  destruct (decoded_image_run n evs Hi) as (H1 & H2).
  split; [exact H1|]. split; [exact H2|].
  intros Hmerged. destruct (decoded_mesh_run n evs Hm) as [H|H];
    [congruence|exact H].
Qed.

(** X15. The fetch that finishes last completes the operation. When the
    mesh fetch has completed and the image element decodes the response, the
    node gets that image and [complete] is delivered; when the image fetch
    has completed and the mesh request loads (with a status other than 200,
    or a payload that the decoder accepts), [complete] is delivered. *)
Theorem last_fetch_completes :
  forall (n : Node) (pre : list BrowserEvent),
    let st := run read n pre in
    (decoding st ->
     mesh_isStopped (mesh_sub st) = true ->
     let st' := run read n (pre ++ [img_onload]) in
     In complete (out (combined st'))
     /\ image (node (combined st')) = Some (img (image_sub st)))
    /\ (forall status e response,
          closed (combined st) = false ->
          mesh_xhr (mesh_sub st) = true ->
          mesh_isStopped (mesh_sub st) = false ->
          image_isStopped (image_sub st) = true ->
          status <> 200 \/ (exists m, read response = Return m) ->
          In complete
            (out (combined
                    (run read n (pre ++ [mesh_xhr_onload status e response]))))).
Proof.
  intros n pre st. pose proof (Inv_run read n pre) as HI. fold st in HI.
  split.
  - intros (Hc & Hs & Hh) Hm st'. subst st'. rewrite run_app. fold st.
    destruct (inv_open st HI Hc) as (_ & Ha & _ & Hdm).
    destruct (Hdm Hm) as (m & x & Em & _).
    destruct st as [r [im h ist] [mx mst] [nd li lm a cl o]].
    simpl in *. subst cl ist mst lm a. destruct h as [e|]; [|contradiction].
    unfold handle, cacheMesh_event. simpl.
    destruct mx; simpl; (split; [|reflexivity]);
      apply in_or_app; right; now left.
  - intros status e response Hc Hx Hs Hi Hok. rewrite run_app. fold st.
    destruct (inv_open st HI Hc) as (_ & Ha & Hdi & _).
    destruct (Hdi Hi) as (i & x & Ei & _).
    destruct st as [r [im h ist] [mx mst] [nd li lm a cl o]].
    simpl in *. subst cl ist mst mx li a.
    unfold handle, cacheMesh_event. simpl.
    assert (E : exists m, (if status =? 200 then read response
                           else Return empty_mesh) = Return m).
    { destruct (N.eqb_spec status 200) as [->|_]; [|eauto].
      destruct Hok as [Hok|Hok]; [contradiction|exact Hok]. }
    destruct E as [m ->]. simpl.
    apply in_or_app. right. now left.
Qed.

End More.

Lemma transport_errors_are_ignored_witness :
  run NodeFacts.read_triangle (NodeFacts.fresh NodeFacts.api_merged)
    ([image_xhr_onprogress (NodeFacts.bytes 1 9)] ++ mesh_xhr_onerror
       :: [mesh_xhr_onprogress (NodeFacts.bytes 2 5)])
  = run NodeFacts.read_triangle (NodeFacts.fresh NodeFacts.api_merged)
      ([image_xhr_onprogress (NodeFacts.bytes 1 9)]
       ++ [mesh_xhr_onprogress (NodeFacts.bytes 2 5)]).
Proof.
  apply (transport_errors_are_ignored NodeFacts.read_triangle).
  right. reflexivity.
Defined.

Lemma nothing_changes_after_termination_witness :
  run NodeFacts.read_triangle (NodeFacts.fresh NodeFacts.api_unmerged)
    ([image_xhr_onload (NodeFacts.bytes 7 7) []; img_onload]
     ++ [image_xhr_onprogress (NodeFacts.bytes 1 7);
         img_onerror NodeFacts.decode_error])
  = run NodeFacts.read_triangle (NodeFacts.fresh NodeFacts.api_unmerged)
      [image_xhr_onload (NodeFacts.bytes 7 7) []; img_onload].
Proof.
  apply (nothing_changes_after_termination NodeFacts.read_triangle).
  left. simpl. right. left. reflexivity.
Defined.

Lemma completion_needs_both_assets_witness :
  In img_onload
    [mesh_xhr_onload 200 (NodeFacts.bytes 40 40) [];
     image_xhr_onload (NodeFacts.bytes 100 100) []; img_onload]
  /\ (exists e response,
        In (image_xhr_onload e response)
          [mesh_xhr_onload 200 (NodeFacts.bytes 40 40) [];
           image_xhr_onload (NodeFacts.bytes 100 100) []; img_onload])
  /\ (merged (NodeFacts.fresh NodeFacts.api_merged) = true ->
      exists status e response,
        In (mesh_xhr_onload status e response)
          [mesh_xhr_onload 200 (NodeFacts.bytes 40 40) [];
           image_xhr_onload (NodeFacts.bytes 100 100) []; img_onload]
        /\ (status <> 200
            \/ exists m, NodeFacts.read_triangle response = Return m)).
Proof.
  apply (completion_needs_both_assets NodeFacts.read_triangle
           (NodeFacts.fresh NodeFacts.api_merged)).
  simpl. right. left. reflexivity.
Defined.

Lemma last_fetch_completes_witness :
  let st := run NodeFacts.read_triangle
              (NodeFacts.fresh NodeFacts.api_unmerged)
              [image_xhr_onload (NodeFacts.bytes 7 7) []] in
  let st' := run NodeFacts.read_triangle
               (NodeFacts.fresh NodeFacts.api_unmerged)
               ([image_xhr_onload (NodeFacts.bytes 7 7) []] ++ [img_onload]) in
  In complete (out (combined st'))
  /\ image (node (combined st')) = Some (img (image_sub st)).
Proof.
  apply (last_fetch_completes NodeFacts.read_triangle
           (NodeFacts.fresh NodeFacts.api_unmerged)).
  - split; [reflexivity|]. split; [reflexivity|]. discriminate.
  - reflexivity.
Defined.

(** X16. A node that is a full panorama and whose cropped width is present
    is a panorama, and its full width is the cropped width. *)
Theorem fullPano_is_pano :
  forall (n : Node) (g : IGPano) (w : Z),
    gpano (apiNavImIm n) = Some g ->
    CroppedAreaImageWidthPixels g = Some w ->
    fullPano n = true ->
    pano n = true /\ FullPanoWidthPixels g = Some w.
Proof.
  intros n g w Hg Hw. unfold fullPano, pano. rewrite Hg, Hw.
  rewrite !andb_true_iff. intros [[_ H] _].
  destruct (FullPanoWidthPixels g) as [f|]; [|discriminate H].
  simpl in H. apply Z.eqb_eq in H. now subst.
Qed.

Lemma fullPano_is_pano_witness :
  pano (NodeFacts.fresh KeyboardHandlers.api_pano) = true
  /\ FullPanoWidthPixels
       {| CroppedAreaLeftPixels := Some 0%Z;
          CroppedAreaTopPixels := Some 0%Z;
          CroppedAreaImageWidthPixels := Some 4000%Z;
          CroppedAreaImageHeightPixels := Some 2000%Z;
          FullPanoWidthPixels := Some 4000%Z;
          FullPanoHeightPixels := Some 2000%Z |}
     = Some 4000%Z.
Proof.
  apply (fullPano_is_pano (NodeFacts.fresh KeyboardHandlers.api_pano)).
  - reflexivity.
  - reflexivity.
  - reflexivity.
Defined.

End NodeCache.

(** ** The buttons of NavigationComponent *)

Module NavigationFacts.

Import Js Edge Node Navigation.

(** The directions that have a button. *)
Definition named (d : EdgeDirection) : bool :=
  negb (EdgeDirection_eqb d Pano || EdgeDirection_eqb d Next
        || EdgeDirection_eqb d Prev).

Lemma add_buttons (es : list IEdge) (btns : list Button) :
  map onclick (fold_left add_button es btns)
  = map onclick btns
    ++ filter named (map (fun e => direction (data e)) es).
Proof.
  revert btns. induction es as [|e es IH]; intros btns; simpl.
  - now rewrite app_nil_r.
  - rewrite IH. unfold add_button.
    destruct (direction (data e)); simpl;
      rewrite ?map_app; simpl; rewrite <- ?app_assoc; reflexivity.
Qed.

Lemma button_selector (es : list IEdge) (btns : list Button) :
  (forall b, In b btns -> Some (selector b)
     = option_map (String.append "span.Direction.Direction")
         (_dirNames (onclick b))) ->
  forall b, In b (fold_left add_button es btns) ->
    Some (selector b)
    = option_map (String.append "span.Direction.Direction")
        (_dirNames (onclick b)).
Proof.
  revert btns. induction es as [|e es IH]; intros btns H; simpl; [exact H|].
  apply IH. intros b Hb. unfold add_button in Hb.
  destruct (_dirNames (direction (data e))) as [nm|] eqn:E; [|now apply H].
  apply in_app_or in Hb. destruct Hb as [Hb|[<-|[]]]; [now apply H|].
  simpl. now rewrite E.
Qed.

(** X17. The buttons of the navigation component. A panorama has none.
    Another node has one button per edge whose direction is a step or a turn
    ([Pano], [Next] and [Prev] edges have none), in the order of the edge
    list; the handler of a button moves in the direction of its edge, and
    its selector carries the name of that direction. Without edges the
    rendering throws. *)
Theorem render_buttons :
  forall (_name : string) (node : Node),
    (pano node = true ->
     exists r, render _name node = Return r /\ children (vnode r) = [])
    /\ (forall es,
          pano node = false -> edges node = Some es ->
          exists r,
            render _name node = Return r
            /\ map onclick (children (vnode r))
               = filter named (map (fun e => direction (data e)) es)
            /\ forall b, In b (children (vnode r)) ->
                 Some (selector b)
                 = option_map (String.append "span.Direction.Direction")
                     (_dirNames (onclick b)))
    /\ (pano node = false -> edges node = None ->
        render _name node = Throw TypeError).
Proof.
  intros _name node. unfold render. split; [|split].
  - intros ->. simpl. eauto.
  - intros es -> ->. simpl. eexists. split; [reflexivity|]. simpl. split.
    + now rewrite add_buttons.
    + apply button_selector. intros b [].
  - now intros -> ->.
Qed.

Lemma render_buttons_witness :
  exists r,
    render "navigation" KeyboardHandlers.perspective_node = Return r
    /\ map onclick (children (vnode r)) = [StepForward; StepLeft]
    /\ map selector (children (vnode r))
       = ["span.Direction.DirectionForward"%string;
          "span.Direction.DirectionLeft"%string].
Proof.
  destruct (proj1 (proj2 (render_buttons "navigation"
                            KeyboardHandlers.perspective_node))
              KeyboardHandlers.crossing eq_refl eq_refl)
    as (r & Hr & Hb & _).
  exists r. split; [exact Hr|]. split; [exact Hb|].
  unfold render in Hr. simpl in Hr. injection Hr as <-. reflexivity.
Defined.

End NavigationFacts.

(** ** PolygonGeometry: the closed polygon *)

Module PolygonFacts.

Import Number NumberFacts Polygon.

Local Open Scope float_scope.

(** *** More of the order of binary64 values *)

Lemma SFltb_false_leb a b :
  a <> S754_nan -> b <> S754_nan -> SFltb a b = false -> SFleb b a = true.
Proof.
  unfold SFltb, SFleb, SFcompare.
  sf_destruct a; sf_destruct b; try congruence; try discriminate;
    try reflexivity; intros _ _ H1; cmp_cases.
Qed.

Lemma SFleb_not_ltb_eqb a b :
  SFleb a b = true -> SFltb a b = false -> SFeqb a b = true.
Proof.
  unfold SFltb, SFleb, SFeqb.
  destruct (SFcompare a b) as [[| |]|]; congruence.
Qed.

Lemma SFleb_not_nan a b :
  SFleb a b = true -> a <> S754_nan /\ b <> S754_nan.
Proof.
  unfold SFleb, SFcompare. sf_destruct a; sf_destruct b;
    try discriminate; intros _; split; discriminate.
Qed.

Lemma is_nan_SF (a : float) : is_nan a = false -> Prim2SF a <> S754_nan.
Proof.
  unfold is_nan. rewrite eqb_spec. intros H E. rewrite E in H.
  discriminate H.
Qed.

Lemma SF_is_nan (a : float) : Prim2SF a <> S754_nan -> is_nan a = false.
Proof.
  unfold is_nan. rewrite eqb_spec. intros H.
  destruct (SFeqb (Prim2SF a) (Prim2SF a)) eqn:E; [reflexivity|].
  apply SFeqb_refl_nan in E. contradiction.
Qed.

Lemma ltb_false_leb (a b : float) :
  is_nan a = false -> is_nan b = false ->
  (a <? b) = false -> (b <=? a) = true.
Proof.
  intros Ha Hb. rewrite ltb_spec, leb_spec.
  apply SFltb_false_leb; now apply is_nan_SF.
Qed.

Lemma leb_not_ltb_eqb (a b : float) :
  (a <=? b) = true -> (a <? b) = false -> (a =? b) = true.
Proof. rewrite leb_spec, ltb_spec, eqb_spec. apply SFleb_not_ltb_eqb. Qed.

Lemma leb_not_nan (a b : float) :
  (a <=? b) = true -> is_nan a = false /\ is_nan b = false.
Proof.
  rewrite leb_spec. intros H. apply SFleb_not_nan in H.
  destruct H. split; now apply SF_is_nan.
Qed.

Lemma leb_not_ltb (a b : float) : (a <=? b) = true -> (b <? a) = false.
Proof.
  intros H. destruct (b <? a) eqn:E; [|reflexivity].
  apply ltb_not_leb in E. congruence.
Qed.

Lemma eqb_refl (a : float) : is_nan a = false -> (a =? a) = true.
Proof. unfold is_nan. now destruct (a =? a). Qed.

(** *** Clamping to the in_unit interval *)

(** A number of the interval [[0, 1]]. *)
Definition in_unit (x : float) : Prop :=
  (0 <=? x) = true /\ (x <=? 1) = true.

Lemma Math_min_1 (x : float) :
  is_nan x = false -> Math_min 1 x = if 1 <? x then 1 else x.
Proof.
  intros H. unfold Math_min. rewrite H.
  change (is_nan 1) with false. change (is_neg_zero 1) with false. simpl.
  destruct (1 <? x); [reflexivity|]. now destruct (x <? 1).
Qed.

Lemma Math_max_0 (x : float) :
  is_nan x = false -> Math_max 0 x = if 0 <? x then x else 0.
Proof.
  intros H. unfold Math_max. rewrite H.
  change (is_nan 0) with false. change (is_neg_zero 0) with false. simpl.
  destruct (0 <? x); [reflexivity|]. now destruct (x <? 0).
Qed.

Lemma clamp_eq (x : float) :
  is_nan x = false ->
  clamp (Some x) = if 1 <? x then 1 else if 0 <? x then x else 0.
Proof.
  intros H. unfold clamp. simpl. rewrite (Math_min_1 x H).
  destruct (1 <? x) eqn:E1.
  - now rewrite Math_max_0.
  - now rewrite (Math_max_0 x H).
Qed.

Lemma clamp_unit (x : float) : is_nan x = false -> in_unit (clamp (Some x)).
Proof.
  intros H. rewrite (clamp_eq x H). unfold in_unit.
  destruct (1 <? x) eqn:E1; [now split|].
  destruct (0 <? x) eqn:E0; [|now split].
  split; [now apply ltb_leb|].
  now apply ltb_false_leb.
Qed.

Lemma clamp_fixed (x : float) : in_unit x -> (clamp (Some x) =? x) = true.
Proof.
  intros [H0 H1]. destruct (leb_not_nan _ _ H0) as [_ Hx].
  rewrite (clamp_eq x Hx). rewrite (leb_not_ltb _ _ H1).
  destruct (0 <? x) eqn:E0; [now apply eqb_refl|].
  now apply leb_not_ltb_eqb.
Qed.

(** *** Lists *)

Lemma insert_at_app {A : Type} (l1 l2 : list A) (x : A) :
  insert_at (List.length l1) x (l1 ++ l2) = l1 ++ x :: l2.
Proof.
  unfold insert_at. rewrite firstn_app, skipn_app, Nat.sub_diag.
  rewrite firstn_all, skipn_all. simpl. now rewrite app_nil_r.
Qed.

Lemma remove_at_app {A : Type} (l1 l2 : list A) (x : A) :
  remove_at (List.length l1) (l1 ++ x :: l2) = l1 ++ l2.
Proof.
  unfold remove_at. induction l1 as [|a l1 IH]; [reflexivity|].
  change (a :: firstn (List.length l1) (l1 ++ x :: l2)
            ++ skipn (S (List.length l1)) (l1 ++ x :: l2) = a :: l1 ++ l2).
  now f_equal.
Qed.

Lemma assign_app {A : Type} (l1 l2 : list A) (x y : A) :
  assign (l1 ++ y :: l2) (List.length l1) x = l1 ++ x :: l2.
Proof. induction l1 as [|a l1 IH]; simpl; [reflexivity|now rewrite IH]. Qed.

Lemma split_at {A : Type} (l : list A) (i : nat) :
  (i < List.length l)%nat ->
  exists pre v post, l = pre ++ v :: post /\ List.length pre = i.
Proof.
  revert i. induction l as [|a l IH]; intros i H; simpl in H; [lia|].
  destruct i as [|i].
  - now exists [], a, l.
  - destruct (IH i) as (pre & v & post & -> & E); [lia|].
    exists (a :: pre), v, post. simpl. now rewrite E.
Qed.

Lemma row_last (first last : list float) (body : list (list float)) :
  row (first :: body ++ [last]) (List.length (first :: body ++ [last]) - 1)
  = last.
Proof.
  unfold row. simpl. rewrite Nat.sub_0_r, length_app. simpl.
  replace (List.length body + 1)%nat with (S (List.length body)) by lia.
  simpl. rewrite app_nth2, Nat.sub_diag; [reflexivity|lia].
Qed.

(** *** The polygon *)

(** The test of the constructor on the two ends of a polygon. *)
Definition ends_differ (first last : list float) : bool :=
  strict_neq (item first 0) (item last 0)
  || strict_neq (item first 1) (item last 1).

Lemma open_ended_ends (first last : list float) (body : list (list float)) :
  open_ended (first :: body ++ [last]) = ends_differ first last.
Proof. unfold open_ended. now rewrite row_last. Qed.

(** A vertex with two coordinates in [[0, 1]]. *)
Definition basic (v : list float) : Prop :=
  exists x y rest, v = x :: y :: rest /\ in_unit x /\ in_unit y.

(** A closed polygon of basic coordinates: three positions or more, the
    last equivalent to the first. *)
Definition well_formed (p : list (list float)) : Prop :=
  (3 <= List.length p)%nat /\ open_ended p = false /\ Forall basic p.

Lemma basic_not_outside (v : list float) : basic v -> outside v = false.
Proof.
  intros (x & y & rest & -> & [Hx0 Hx1] & [Hy0 Hy1]).
  unfold outside, lt, gt. simpl.
  now rewrite (leb_not_ltb _ _ Hx0), (leb_not_ltb _ _ Hx1),
    (leb_not_ltb _ _ Hy0), (leb_not_ltb _ _ Hy1).
Qed.

Lemma basic_same_ends (v : list float) : basic v -> ends_differ v v = false.
Proof.
  intros (x & y & rest & -> & [Hx0 _] & [Hy0 _]).
  unfold ends_differ. simpl.
  destruct (leb_not_nan _ _ Hx0) as [_ Hx].
  destruct (leb_not_nan _ _ Hy0) as [_ Hy].
  now rewrite (eqb_refl x Hx), (eqb_refl y Hy).
Qed.

Lemma clamped_basic (x y : float) :
  is_nan x = false -> is_nan y = false ->
  basic [clamp (Some x); clamp (Some y)].
Proof.
  intros Hx Hy. exists (clamp (Some x)), (clamp (Some y)), [].
  split; [reflexivity|]. split; now apply clamp_unit.
Qed.

Lemma copy_vertices_spec (p acc : list (list float)) :
  copy_vertices p acc
  = if existsb outside p
    then GeometryTagError
           "Basic coordinates must be on the interval [0, 1]."
    else Normal (acc ++ p).
Proof.
  revert acc. induction p as [|v p IH]; intros acc; simpl.
  - now rewrite app_nil_r.
  - destruct (outside v); simpl; [reflexivity|].
    rewrite IH. now rewrite <- app_assoc.
Qed.

(** *** An example polygon *)

Definition square : list (list float) :=
  [[0; 0]; [1; 0]; [1; 1]; [0; 1]; [0; 0]].

Definition square_geometry : PolygonGeometry :=
  {| _polygon := square; notifications := 0 |}.

Lemma square_well_formed : well_formed square.
Proof.
  split; [simpl; lia|]. split; [reflexivity|].
  repeat (constructor;
          [eexists _, _, _; split; [reflexivity|];
           split; split; reflexivity|]).
  constructor.
Defined.

(** X18. The constructor in closed form. It throws for fewer than three
    positions; otherwise it throws when the first and the last position
    differ in one of their two coordinates; otherwise it throws when some
    vertex has a coordinate below 0 or above 1; otherwise it stores a copy
    of the polygon, and no notification is sent. The three errors are tested
    in this order. *)
Theorem new_PolygonGeometry_spec :
  forall polygon0 : list (list float),
    new_PolygonGeometry polygon0
    = if (List.length polygon0 <? 3)%nat then
        GeometryTagError "A polygon must have three or more positions."
      else if open_ended polygon0 then
        GeometryTagError "First and last positions must be equivalent."
      else if existsb outside polygon0 then
        GeometryTagError "Basic coordinates must be on the interval [0, 1]."
      else Normal {| _polygon := polygon0; notifications := 0 |}.
Proof.
  intros p. unfold new_PolygonGeometry. rewrite copy_vertices_spec.
  destruct (List.length p <? 3)%nat; [reflexivity|].
  destruct (open_ended p); [reflexivity|].
  now destruct (existsb outside p).
Qed.

(** X19. The constructor accepts every closed polygon of three positions
    or more whose vertices have two coordinates in [[0, 1]], and stores it
    unchanged. *)
Theorem new_PolygonGeometry_accepts_well_formed :
  forall polygon0 : list (list float),
    well_formed polygon0 ->
    new_PolygonGeometry polygon0
    = Normal {| _polygon := polygon0; notifications := 0 |}.
Proof.
  intros p (Hlen & Hclosed & Hbasic).
  unfold new_PolygonGeometry. rewrite copy_vertices_spec.
  apply Nat.ltb_ge in Hlen. rewrite Hlen, Hclosed.
  replace (existsb outside p) with false; [reflexivity|].
  symmetry. apply not_true_is_false. intros H.
  apply existsb_exists in H. destruct H as (v & Hv & Ho).
  rewrite Forall_forall in Hbasic.
  rewrite (basic_not_outside v (Hbasic v Hv)) in Ho. discriminate Ho.
Qed.

Lemma new_PolygonGeometry_accepts_well_formed_witness :
  new_PolygonGeometry square
  = Normal {| _polygon := square; notifications := 0 |}.
Proof.
  apply new_PolygonGeometry_accepts_well_formed.
  exact square_well_formed.
Defined.

(** A list of two elements or more has a first element, a body and a last
    element. *)
Lemma ends_of {A : Type} (l : list A) :
  (2 <= List.length l)%nat ->
  exists first body last, l = first :: body ++ [last].
Proof.
  destruct l as [|a l]; simpl; [lia|]. intros H.
  destruct (exists_last (l := l)) as (body & last & ->).
  - destruct l; simpl in H; [lia|discriminate].
  - now exists a, body, last.
Qed.

Lemma well_formed_ends (first last : list float) (body : list (list float)) :
  well_formed (first :: body ++ [last]) <->
  (1 <= List.length body)%nat
  /\ ends_differ first last = false
  /\ basic first /\ Forall basic body /\ basic last.
Proof.
  unfold well_formed. rewrite open_ended_ends. simpl.
  rewrite length_app. simpl.
  rewrite Forall_cons_iff, Forall_app, Forall_cons_iff.
  split.
  - intros (H1 & H2 & H3 & H4 & H5 & _).
    split; [lia|]. split; [exact H2|]. split; [exact H3|]. now split.
  - intros (H1 & H2 & H3 & H4 & H5).
    split; [lia|]. split; [exact H2|]. split; [exact H3|].
    split; [exact H4|]. now split.
Qed.

(** The array after [addVertex2d]: [splice] at the last index puts the new
    element before the last one. *)
Lemma addVertex2d_polygon (g : PolygonGeometry) (vertex : list float)
    (body : list (list float)) (closing : list float) :
  polygon g = body ++ [closing] ->
  polygon (addVertex2d g vertex)
  = body ++ [[clamp (item vertex 0); clamp (item vertex 1)]; closing].
Proof.
  intros H. unfold polygon in *.
  unfold addVertex2d. simpl. rewrite H, length_app. simpl.
  replace (List.length body + 1 - 1)%nat with (List.length body) by lia.
  now rewrite insert_at_app.
Qed.

(** X20. [addVertex2d] inserts the vertex, clamped to two coordinates,
    just before the closing position: the positions before it and the
    closing position stay as they are, in order, and one notification is
    sent. *)
Theorem addVertex2d_inserts_before_closing :
  forall (g : PolygonGeometry) (vertex : list float)
         (body : list (list float)) (closing : list float),
    polygon g = body ++ [closing] ->
    polygon (addVertex2d g vertex)
    = body ++ [[clamp (item vertex 0); clamp (item vertex 1)]; closing]
    /\ notifications (addVertex2d g vertex) = S (notifications g).
Proof.
  intros g vertex body closing H.
  split; [now apply addVertex2d_polygon|reflexivity].
Qed.

Lemma addVertex2d_inserts_before_closing_witness :
  polygon (addVertex2d square_geometry [0.5; 2])
  = [[0; 0]; [1; 0]; [1; 1]; [0; 1]]
    ++ [[clamp (item [0.5; 2] 0); clamp (item [0.5; 2] 1)]; [0; 0]]
  /\ notifications (addVertex2d square_geometry [0.5; 2])
     = S (notifications square_geometry).
Proof.
  apply (addVertex2d_inserts_before_closing square_geometry [0.5; 2]
           [[0; 0]; [1; 0]; [1; 1]; [0; 1]] [0; 0]).
  reflexivity.
Defined.

(** X21. [addVertex2d] keeps the polygon closed and basic: for a vertex
    whose two coordinates are numbers (not [NaN]), wherever they lie, the
    polygon is again a closed polygon of coordinates in [[0, 1]], one
    position longer. *)
Theorem addVertex2d_keeps_well_formed :
  forall (g : PolygonGeometry) (vertex : list float) (x y : float),
    well_formed (polygon g) ->
    item vertex 0 = Some x -> is_nan x = false ->
    item vertex 1 = Some y -> is_nan y = false ->
    well_formed (polygon (addVertex2d g vertex))
    /\ List.length (polygon (addVertex2d g vertex))
       = S (List.length (polygon g)).
Proof.
  intros g vertex x y Hw Ex Hx Ey Hy.
  destruct (ends_of (polygon g)) as (first & body & last & E);
    [destruct Hw; lia|].
  pose proof (addVertex2d_polygon g vertex (first :: body) last E) as E'.
  rewrite E', Ex, Ey. rewrite E in Hw. rewrite E. clear E E'.
  apply well_formed_ends in Hw. destruct Hw as (H1 & H2 & H3 & H4 & H5).
  split.
  - change ((first :: body)
            ++ [[clamp (Some x); clamp (Some y)]; last])
      with (first :: (body ++ [[clamp (Some x); clamp (Some y)]] ++ [last])).
    rewrite app_assoc. apply well_formed_ends.
    rewrite length_app, Forall_app. simpl.
    split; [lia|]. split; [exact H2|]. split; [exact H3|].
    split; [|exact H5]. split; [exact H4|].
    constructor; [now apply clamped_basic|constructor].
  - simpl. rewrite !length_app. simpl. lia.
Qed.

Lemma addVertex2d_keeps_well_formed_witness :
  well_formed (polygon (addVertex2d square_geometry [-3; 2]))
  /\ List.length (polygon (addVertex2d square_geometry [-3; 2]))
     = S (List.length (polygon square_geometry)).
Proof.
  apply (addVertex2d_keeps_well_formed square_geometry [-3; 2] (-3) 2).
  - exact square_well_formed.
  - reflexivity.
  - reflexivity.
  - reflexivity.
  - reflexivity.
Defined.

(** X22. A vertex whose coordinates already lie in [[0, 1]] is stored with
    coordinates equal to the given ones ([===]); further components of the
    vertex are dropped. *)
Theorem addVertex2d_keeps_basic_coordinates :
  forall (g : PolygonGeometry) (x y : float) (rest : list float)
         (body : list (list float)) (closing : list float),
    polygon g = body ++ [closing] ->
    in_unit x -> in_unit y ->
    exists x' y',
      polygon (addVertex2d g (x :: y :: rest)) = body ++ [[x'; y']; closing]
      /\ (x' =? x) = true /\ (y' =? y) = true.
Proof.
  intros g x y rest body closing E Hx Hy.
  pose proof (addVertex2d_polygon g (x :: y :: rest) _ _ E) as E'.
  exists (clamp (Some x)), (clamp (Some y)).
  split; [exact E'|]. split; now apply clamp_fixed.
Qed.

Lemma addVertex2d_keeps_basic_coordinates_witness :
  exists x' y',
    polygon (addVertex2d square_geometry [0.5; 0.25; 7])
    = [[0; 0]; [1; 0]; [1; 1]; [0; 1]] ++ [[x'; y']; [0; 0]]
    /\ (x' =? 0.5) = true /\ (y' =? 0.25) = true.
Proof.
  apply (addVertex2d_keeps_basic_coordinates square_geometry 0.5 0.25 [7]
           [[0; 0]; [1; 0]; [1; 1]; [0; 1]] [0; 0]).
  - reflexivity.
  - split; reflexivity.
  - split; reflexivity.
Defined.

Lemma removeVertex2d_guard (g : PolygonGeometry) (index : Z) :
  let length := Z.of_nat (List.length (polygon g)) in
  ((index <? 0)%Z || (index >=? length)%Z || (length <? 4)%Z) = false <->
  (0 <= index < length)%Z /\ (4 <= length)%Z.
Proof.
  simpl. rewrite !orb_false_iff, Z.ltb_ge, Z.geb_leb, Z.leb_gt, Z.ltb_ge. lia.
Qed.

(** [removeVertex2d] throws exactly for an index outside the polygon and
    for a polygon of fewer than four positions. *)
Theorem removeVertex2d_fails_iff :
  forall (g : PolygonGeometry) (index : Z),
    let length := Z.of_nat (List.length (polygon g)) in
    removeVertex2d g index
    = GeometryTagError "Index for removed vertex must be valid."
    <-> (index < 0 \/ length <= index \/ length < 4)%Z.
Proof.
  intros g index length. unfold removeVertex2d. fold (polygon g). fold length.
  destruct ((index <? 0)%Z || (index >=? length)%Z || (length <? 4)%Z) eqn:E.
  - split; [|reflexivity]. intros _.
    rewrite !orb_true_iff, Z.ltb_lt, Z.geb_leb, Z.leb_le, Z.ltb_lt in E. lia.
  - apply removeVertex2d_guard in E.
    split; [|lia].
    destruct ((index >? 0)%Z && (index <? length - 1)%Z); discriminate.
Qed.

(** Removing a position strictly between the ends takes it out and leaves
    the others in order. *)
Theorem removeVertex2d_interior :
  forall (g : PolygonGeometry) (pre post : list (list float))
         (v : list float),
    polygon g = pre ++ v :: post ->
    pre <> [] -> post <> [] ->
    (4 <= List.length (polygon g))%nat ->
    removeVertex2d g (Z.of_nat (List.length pre))
    = Normal {| _polygon := pre ++ post;
                notifications := S (notifications g) |}.
Proof.
  intros g pre post v E Hpre Hpost Hlen. unfold polygon in *.
  assert (L : List.length (_polygon g)
              = (List.length pre + S (List.length post))%nat)
    by (rewrite E, length_app; reflexivity).
  assert (0 < List.length pre)%nat by (destruct pre; simpl; [congruence|lia]).
  assert (0 < List.length post)%nat by (destruct post; simpl; [congruence|lia]).
  unfold removeVertex2d.
  replace ((Z.of_nat (List.length pre) <? 0)%Z
           || (Z.of_nat (List.length pre)
               >=? Z.of_nat (List.length (_polygon g)))%Z
           || (Z.of_nat (List.length (_polygon g)) <? 4)%Z) with false
    by (symmetry; apply (proj2 (removeVertex2d_guard g _));
        unfold polygon; lia).
  replace ((Z.of_nat (List.length pre) >? 0)%Z
           && (Z.of_nat (List.length pre)
               <? Z.of_nat (List.length (_polygon g)) - 1)%Z) with true
    by (symmetry; rewrite andb_true_iff, Z.gtb_ltb, !Z.ltb_lt; lia).
  rewrite Nat2Z.id, E, remove_at_app. reflexivity.
Qed.

(** The branch of [removeVertex2d] for the two ends. *)
Lemma removeVertex2d_ends (g : PolygonGeometry)
    (first second last : list float) (rest : list (list float))
    (index : Z) :
  _polygon g = first :: second :: rest ++ [last] ->
  rest <> [] ->
  index = 0%Z \/ index = (Z.of_nat (List.length (_polygon g)) - 1)%Z ->
  removeVertex2d g index = Normal (notify (second :: rest ++ [second]) g).
Proof.
  intros E Hrest Hi.
  assert (L : List.length (_polygon g) = (List.length rest + 3)%nat)
    by (rewrite E; simpl; rewrite length_app; simpl; lia).
  assert (0 < List.length rest)%nat by (destruct rest; simpl; [congruence|lia]).
  unfold removeVertex2d.
  replace ((index <? 0)%Z
           || (index >=? Z.of_nat (List.length (_polygon g)))%Z
           || (Z.of_nat (List.length (_polygon g)) <? 4)%Z) with false
    by (symmetry; apply (proj2 (removeVertex2d_guard g _));
        unfold polygon; lia).
  replace ((index >? 0)%Z
           && (index <? Z.of_nat (List.length (_polygon g)) - 1)%Z) with false
    by (symmetry; rewrite andb_false_iff, Z.gtb_ltb, !Z.ltb_ge; lia).
  rewrite E.
  change (remove_at 0 (first :: second :: rest ++ [last]))
    with ((second :: rest) ++ [last]).
  rewrite removelast_last. reflexivity.
Qed.

(** X23. Removing the first position and removing the last position are
    the same operation: both ends go, and the polygon is closed again on
    what was its second position. *)
Theorem removeVertex2d_end :
  forall (g : PolygonGeometry) (first second last : list float)
         (rest : list (list float)) (index : Z),
    polygon g = first :: second :: rest ++ [last] ->
    rest <> [] ->
    index = 0%Z \/ index = (Z.of_nat (List.length (polygon g)) - 1)%Z ->
    removeVertex2d g index
    = Normal {| _polygon := second :: rest ++ [second];
                notifications := S (notifications g) |}.
Proof.
  intros g first second last rest index E Hrest Hi.
  now apply (removeVertex2d_ends g first second last rest index).
Qed.

Lemma removeVertex2d_end_witness :
  removeVertex2d square_geometry 0
  = Normal {| _polygon := [1; 0] :: [[1; 1]; [0; 1]] ++ [[1; 0]];
              notifications := S (notifications square_geometry) |}.
Proof.
  apply (removeVertex2d_end square_geometry [0; 0] [1; 0] [0; 0]
           [[1; 1]; [0; 1]] 0).
  - reflexivity.
  - discriminate.
  - left. reflexivity.
Defined.

(** X24. Whenever [removeVertex2d] returns, on a closed polygon of basic
    coordinates, the polygon is again closed and basic, one position
    shorter (and still of three positions or more), and one notification
    has been sent. *)
Theorem removeVertex2d_keeps_well_formed :
  forall (g g' : PolygonGeometry) (index : Z),
    well_formed (polygon g) ->
    removeVertex2d g index = Normal g' ->
    well_formed (polygon g')
    /\ S (List.length (polygon g')) = List.length (polygon g)
    /\ notifications g' = S (notifications g).
Proof.
  intros g g' index Hw Hr.
  assert (Hg : (0 <= index < Z.of_nat (List.length (polygon g)))%Z
               /\ (4 <= Z.of_nat (List.length (polygon g)))%Z).
  { apply removeVertex2d_guard.
    unfold removeVertex2d in Hr. fold (polygon g) in Hr.
    destruct (_ || _ || _); [discriminate Hr|reflexivity]. }
  destruct Hg as [Hi Hlen].
  destruct (Z.eq_dec index 0) as [H0|H0];
    [|destruct (Z.eq_dec index (Z.of_nat (List.length (polygon g)) - 1))
        as [H1|H1]].
  1, 2:
    destruct (ends_of (polygon g)) as (first & body & last & E); [lia|];
    destruct body as [|second rest];
      [rewrite E in Hlen; simpl in Hlen; lia|];
    assert (Hrest : rest <> [])
      by (intros ->; rewrite E in Hlen; simpl in Hlen; lia);
    rewrite (removeVertex2d_ends g first second last rest index E Hrest)
      in Hr by auto;
    injection Hr as <-; unfold polygon in *; simpl;
    rewrite E in Hw |- *;
    apply well_formed_ends in Hw;
    destruct Hw as (_ & _ & _ & Hb & _);
    apply Forall_cons_iff in Hb; destruct Hb as [Hs Hb];
    (split; [|split; [simpl; rewrite !length_app; simpl; lia|reflexivity]]);
    apply well_formed_ends;
    (split; [destruct rest; simpl; [congruence|lia]|]);
    (split; [now apply basic_same_ends|]);
    (split; [exact Hs|]); now split.
  destruct (split_at (polygon g) (Z.to_nat index))
    as (pre & v & post & E & Lpre); [lia|].
  assert (Lp : List.length (polygon g)
               = (List.length pre + S (List.length post))%nat)
    by (rewrite E, length_app; reflexivity).
  assert (Hpre : pre <> []) by (intros ->; simpl in Lpre; lia).
  assert (Hpost : post <> []) by (intros ->; simpl in Lp; lia).
  replace index with (Z.of_nat (List.length pre)) in Hr by lia.
  rewrite (removeVertex2d_interior g pre post v E Hpre Hpost) in Hr by lia.
  injection Hr as <-. unfold polygon in *. simpl.
  destruct pre as [|first pre]; [congruence|].
  destruct (exists_last Hpost) as (post' & last & ->).
  rewrite E in Hw |- *.
  change ((first :: pre) ++ v :: post' ++ [last])
    with (first :: (pre ++ v :: post' ++ [last])) in Hw.
  replace (pre ++ v :: post' ++ [last])
    with ((pre ++ v :: post') ++ [last]) in Hw
    by (now rewrite <- app_assoc).
  apply well_formed_ends in Hw. destruct Hw as (_ & He & Hf & Hb & Hl).
  apply Forall_app in Hb. destruct Hb as [Hb1 Hb2].
  apply Forall_cons_iff in Hb2. destruct Hb2 as [_ Hb2].
  split; [|split; [simpl; rewrite !length_app; simpl;
                   rewrite !length_app; simpl; lia|reflexivity]].
  change ((first :: pre) ++ post' ++ [last])
    with (first :: (pre ++ post' ++ [last])).
  rewrite app_assoc. apply well_formed_ends.
  split.
  - rewrite E in Hlen. simpl in Hlen. rewrite !length_app in Hlen.
    simpl in Hlen. rewrite length_app in Hlen |- *. simpl in Hlen. lia.
  - split; [exact He|]. split; [exact Hf|]. split; [|exact Hl].
    apply Forall_app. now split.
Qed.

Lemma removeVertex2d_keeps_well_formed_witness :
  well_formed [[0; 0]; [1; 0]; [0; 1]; [0; 0]]
  /\ S (List.length [[0; 0]; [1; 0]; [0; 1]; [0; 0]])
     = List.length (polygon square_geometry)
  /\ 1%nat = S (notifications square_geometry).
Proof.
  apply (removeVertex2d_keeps_well_formed square_geometry
           {| _polygon := [[0; 0]; [1; 0]; [0; 1]; [0; 0]];
              notifications := 1 |} 2).
  - exact square_well_formed.
  - reflexivity.
Defined.

(** X25. Adding a vertex and then removing the position it was given (the
    one before the closing position) gives the polygon back, with two
    notifications sent. *)
Theorem addVertex2d_then_removeVertex2d :
  forall (g : PolygonGeometry) (vertex : list float),
    (3 <= List.length (polygon g))%nat ->
    removeVertex2d (addVertex2d g vertex)
      (Z.of_nat (List.length (polygon g)) - 1)
    = Normal {| _polygon := polygon g;
                notifications := S (S (notifications g)) |}.
Proof.
  intros g vertex Hlen.
  destruct (exists_last (l := polygon g)) as (body & closing & E).
  { intros H. rewrite H in Hlen. simpl in Hlen. lia. }
  pose proof (addVertex2d_polygon g vertex body closing E) as E'.
  assert (En : notifications (addVertex2d g vertex) = S (notifications g))
    by reflexivity.
  rewrite E in Hlen |- *. rewrite length_app in Hlen |- *. simpl in Hlen |- *.
  replace (Z.of_nat (List.length body + 1) - 1)%Z
    with (Z.of_nat (List.length body)) by lia.
  rewrite (removeVertex2d_interior (addVertex2d g vertex) body [closing]
             [clamp (item vertex 0); clamp (item vertex 1)]).
  - now rewrite En.
  - exact E'.
  - intros ->. simpl in Hlen. lia.
  - discriminate.
  - rewrite E', length_app. simpl. lia.
Qed.

Lemma addVertex2d_then_removeVertex2d_witness :
  removeVertex2d (addVertex2d square_geometry [0.5; 0.5])
    (Z.of_nat (List.length (polygon square_geometry)) - 1)
  = Normal {| _polygon := polygon square_geometry;
              notifications := S (S (notifications square_geometry)) |}.
Proof.
  apply addVertex2d_then_removeVertex2d. simpl. lia.
Defined.

(** The branch of [setVertex2d] for the two ends. *)
Lemma setVertex2d_ends (g : PolygonGeometry) (first last : list float)
    (body : list (list float)) (index : Z) (value : list float) :
  _polygon g = first :: body ++ [last] ->
  index = 0%Z \/ index = (Z.of_nat (List.length (_polygon g)) - 1)%Z ->
  let changed := [clamp (item value 0); clamp (item value 1)] in
  setVertex2d g index value = Some (notify (changed :: body ++ [changed]) g).
Proof.
  intros E Hi changed.
  unfold setVertex2d. fold changed.
  replace ((index =? 0)%Z
           || (index =? Z.of_nat (List.length (_polygon g)) - 1)%Z)
    with true
    by (symmetry; rewrite orb_true_iff, !Z.eqb_eq; exact Hi).
  rewrite E. unfold notify. do 2 f_equal.
  change (assign (first :: body ++ [last]) 0 changed)
    with ((changed :: body) ++ [last]).
  replace (List.length ((changed :: body) ++ [last]) - 1)%nat
    with (List.length (changed :: body))
    by (rewrite length_app; simpl; lia).
  now rewrite assign_app.
Qed.

(** X26. Setting the first or the last position sets both ends to the same
    clamped value, and leaves the positions between them as they are. *)
Theorem setVertex2d_moves_both_ends :
  forall (g : PolygonGeometry) (first last : list float)
         (body : list (list float)) (index : Z) (value : list float),
    polygon g = first :: body ++ [last] ->
    index = 0%Z \/ index = (Z.of_nat (List.length (polygon g)) - 1)%Z ->
    let changed := [clamp (item value 0); clamp (item value 1)] in
    setVertex2d g index value
    = Some {| _polygon := changed :: body ++ [changed];
              notifications := S (notifications g) |}.
Proof.
  intros g first last body index value E Hi changed.
  now apply (setVertex2d_ends g first last body index value).
Qed.

Lemma setVertex2d_moves_both_ends_witness :
  setVertex2d square_geometry 4 [0.5; 3]
  = Some {| _polygon :=
              [clamp (item [0.5; 3] 0); clamp (item [0.5; 3] 1)]
              :: [[1; 0]; [1; 1]; [0; 1]]
              ++ [[clamp (item [0.5; 3] 0); clamp (item [0.5; 3] 1)]];
            notifications := S (notifications square_geometry) |}.
Proof.
  apply (setVertex2d_moves_both_ends square_geometry [0; 0] [0; 0]
           [[1; 0]; [1; 1]; [0; 1]] 4 [0.5; 3]).
  - reflexivity.
  - right. reflexivity.
Defined.

(** Setting a position strictly between the ends changes that position
    only. *)
Lemma setVertex2d_interior (g : PolygonGeometry) (pre post : list (list float))
    (v value : list float) :
  polygon g = pre ++ v :: post ->
  pre <> [] -> post <> [] ->
  setVertex2d g (Z.of_nat (List.length pre)) value
  = Some {| _polygon :=
              pre ++ [clamp (item value 0); clamp (item value 1)] :: post;
            notifications := S (notifications g) |}.
Proof.
  intros E Hpre Hpost. unfold polygon in *.
  assert (L : List.length (_polygon g)
              = (List.length pre + S (List.length post))%nat)
    by (rewrite E, length_app; reflexivity).
  assert (0 < List.length pre)%nat by (destruct pre; simpl; [congruence|lia]).
  assert (0 < List.length post)%nat by (destruct post; simpl; [congruence|lia]).
  unfold setVertex2d.
  replace ((Z.of_nat (List.length pre) =? 0)%Z
           || (Z.of_nat (List.length pre)
               =? Z.of_nat (List.length (_polygon g)) - 1)%Z)
    with false
    by (symmetry; rewrite orb_false_iff, !Z.eqb_neq; lia).
  replace (Z.of_nat (List.length pre) <? 0)%Z with false
    by (symmetry; apply Z.ltb_ge; lia).
  replace (Z.of_nat (List.length pre)
           <? Z.of_nat (List.length (_polygon g)))%Z with true
    by (symmetry; apply Z.ltb_lt; lia).
  rewrite Nat2Z.id, E, assign_app. reflexivity.
Qed.

(** X27. [setVertex2d] at an index of the polygon, with a value whose two
    coordinates are numbers (not [NaN]), keeps the polygon closed and basic
    and of the same length. *)
Theorem setVertex2d_keeps_well_formed :
  forall (g : PolygonGeometry) (index : Z) (value : list float)
         (x y : float),
    well_formed (polygon g) ->
    (0 <= index < Z.of_nat (List.length (polygon g)))%Z ->
    item value 0 = Some x -> is_nan x = false ->
    item value 1 = Some y -> is_nan y = false ->
    exists g',
      setVertex2d g index value = Some g'
      /\ well_formed (polygon g')
      /\ List.length (polygon g') = List.length (polygon g)
      /\ notifications g' = S (notifications g).
Proof.
  intros g index value x y Hw Hi Ex Hx Ey Hy.
  pose proof (clamped_basic x y Hx Hy) as Hc.
  destruct (ends_of (polygon g)) as (first & body & last & E);
    [destruct Hw; lia|].
  destruct (Z.eq_dec index 0) as [H0|H0];
    [|destruct (Z.eq_dec index (Z.of_nat (List.length (polygon g)) - 1))
        as [H1|H1]].
  1, 2:
    eexists; split;
      [apply (setVertex2d_ends g first last body index value E);
       auto|];
    rewrite Ex, Ey; unfold polygon in *; simpl;
    rewrite E in Hw |- *; apply well_formed_ends in Hw;
    destruct Hw as (Hl & _ & _ & Hb & _);
    (split; [|split; [simpl; rewrite !length_app; reflexivity|reflexivity]]);
    apply well_formed_ends;
    (split; [exact Hl|]); (split; [now apply basic_same_ends|]);
    (split; [exact Hc|]); now split.
  destruct (split_at (polygon g) (Z.to_nat index))
    as (pre & v & post & E' & Lpre); [lia|].
  assert (Lp : List.length (polygon g)
               = (List.length pre + S (List.length post))%nat)
    by (rewrite E', length_app; reflexivity).
  assert (Hpre : pre <> []) by (intros ->; simpl in Lpre; lia).
  assert (Hpost : post <> []) by (intros ->; simpl in Lp; lia).
  eexists. split.
  { replace index with (Z.of_nat (List.length pre)) by lia.
    now apply (setVertex2d_interior g pre post v value E'). }
  rewrite Ex, Ey. unfold polygon in *. simpl.
  destruct pre as [|first' pre]; [congruence|].
  destruct (exists_last Hpost) as (post' & last' & ->).
  rewrite E' in Hw |- *.
  change ((first' :: pre) ++ v :: post' ++ [last'])
    with (first' :: (pre ++ v :: post' ++ [last'])) in Hw.
  replace (pre ++ v :: post' ++ [last'])
    with ((pre ++ v :: post') ++ [last']) in Hw
    by (now rewrite <- app_assoc).
  apply well_formed_ends in Hw. destruct Hw as (Hl & He & Hf & Hb & Hla).
  apply Forall_app in Hb. destruct Hb as [Hb1 Hb2].
  apply Forall_cons_iff in Hb2. destruct Hb2 as [_ Hb2].
  split; [|split; [simpl; rewrite !length_app; simpl;
                   rewrite !length_app; reflexivity|reflexivity]].
  change ((first' :: pre) ++ [clamp (Some x); clamp (Some y)]
            :: post' ++ [last'])
    with (first' :: (pre ++ [clamp (Some x); clamp (Some y)]
                       :: post' ++ [last'])).
  replace (pre ++ [clamp (Some x); clamp (Some y)] :: post' ++ [last'])
    with ((pre ++ [clamp (Some x); clamp (Some y)] :: post') ++ [last'])
    by (now rewrite <- app_assoc).
  apply well_formed_ends.
  split.
  - rewrite length_app in Hl |- *. simpl in Hl |- *. lia.
  - split; [exact He|]. split; [exact Hf|]. split; [|exact Hla].
    apply Forall_app. split; [exact Hb1|]. now constructor.
Qed.

Lemma setVertex2d_keeps_well_formed_witness :
  exists g',
    setVertex2d square_geometry 2 [5; -1] = Some g'
    /\ well_formed (polygon g')
    /\ List.length (polygon g') = List.length (polygon square_geometry)
    /\ notifications g' = S (notifications square_geometry).
Proof.
  apply (setVertex2d_keeps_well_formed square_geometry 2 [5; -1] 5 (-1)).
  - exact square_well_formed.
  - simpl. lia.
  - reflexivity.
  - reflexivity.
  - reflexivity.
  - reflexivity.
Defined.

End PolygonFacts.

(** ** OutlineTag: the options *)

Module OutlineTagFacts.

Import Js OutlineTag OutlineTag.Options.

(** No option provided. *)
Definition no_options {A : Type} : IOutlineTagOptions A :=
  {| editable := undefined; fillColor := undefined; fillOpacity := undefined;
     icon := undefined; iconAlignment := undefined; iconIndex := undefined;
     indicateVertices := undefined; lineColor := undefined;
     lineWidth := undefined; text := undefined; textColor := undefined |}.

(** The tag after one more call of [_notifyChanged$.next(this)]. *)
Definition notified {A G : Type} (t : OutlineTag A G) : OutlineTag A G :=
  {| _id := _id t; _geometry := _geometry t; _editable := _editable t;
     _fillColor := _fillColor t; _fillOpacity := _fillOpacity t;
     _icon := _icon t; _iconAlignment := _iconAlignment t;
     _iconIndex := _iconIndex t; _indicateVertices := _indicateVertices t;
     _lineColor := _lineColor t; _lineWidth := _lineWidth t;
     _text := _text t; _textColor := _textColor t;
     notifications := S (notifications t) |}.

Lemma or_else_twice {B : Type} (given : Ref B) (current : B) :
  or_else given (or_else given current) = or_else given current.
Proof. now destruct given. Qed.

Lemma unless_undefined_twice (given : Ref string) (current : option string) :
  unless_undefined given (unless_undefined given current)
  = unless_undefined given current.
Proof. now destruct given. Qed.

Lemma unless_undefined_null (given : Ref string) :
  unless_undefined given None
  = match given with obj v => Some v | _ => None end.
Proof. now destruct given. Qed.

(** X28. The constructor and [setOptions] agree: building a tag with some
    options gives the fields that [setOptions] with these options gives on
    a tag built without options (which sends one notification more). *)
Theorem constructor_is_setOptions_on_defaults :
  forall (A G : Type) (Outer : A) (id : string) (geometry : G)
         (options : IOutlineTagOptions A),
    setOptions (new_OutlineTag Outer id geometry no_options) options
    = notified (new_OutlineTag Outer id geometry options).
Proof. intros A G Outer id geometry options. reflexivity. Qed.

(** X29. [setOptions] is idempotent on the fields of the tag: a second
    call with the same options changes nothing but the number of
    notifications; and a call without any option leaves every field as it
    is. *)
Theorem setOptions_idempotent :
  forall (A G : Type) (t : OutlineTag A G) (options : IOutlineTagOptions A),
    setOptions (setOptions t options) options
    = notified (setOptions t options)
    /\ setOptions t no_options = notified t.
Proof.
  intros A G t options. split; [|now destruct t].
  unfold setOptions, notified. simpl.
  now rewrite !or_else_twice, !unless_undefined_twice.
Qed.

(** X30. [null] is not treated alike by all options. For [icon] and [text]
    only [undefined] keeps the current value: [null] clears the field. For
    every other option [null] keeps the current value, as [undefined]
    does. *)
Theorem setOptions_null :
  forall (A G : Type) (t : OutlineTag A G) (options : IOutlineTagOptions A),
    (icon options = null -> _icon (setOptions t options) = None)
    /\ (text options = null -> _text (setOptions t options) = None)
    /\ (editable options = null ->
        _editable (setOptions t options) = _editable t)
    /\ (fillColor options = null ->
        _fillColor (setOptions t options) = _fillColor t)
    /\ (fillOpacity options = null ->
        _fillOpacity (setOptions t options) = _fillOpacity t)
    /\ (iconAlignment options = null ->
        _iconAlignment (setOptions t options) = _iconAlignment t)
    /\ (iconIndex options = null ->
        _iconIndex (setOptions t options) = _iconIndex t)
    /\ (indicateVertices options = null ->
        _indicateVertices (setOptions t options) = _indicateVertices t)
    /\ (lineColor options = null ->
        _lineColor (setOptions t options) = _lineColor t)
    /\ (lineWidth options = null ->
        _lineWidth (setOptions t options) = _lineWidth t)
    /\ (textColor options = null ->
        _textColor (setOptions t options) = _textColor t).
Proof.
  intros A G t options. unfold setOptions. simpl.
  repeat (split; [now intros ->|]). now intros ->.
Qed.

Lemma setOptions_null_witness :
  _icon (setOptions
           (new_OutlineTag true "tag" tt
              {| editable := undefined; fillColor := undefined;
                 fillOpacity := undefined; icon := obj "star"%string;
                 iconAlignment := undefined; iconIndex := undefined;
                 indicateVertices := undefined; lineColor := undefined;
                 lineWidth := undefined; text := undefined;
                 textColor := undefined |})
           {| editable := undefined; fillColor := undefined;
              fillOpacity := undefined; icon := null;
              iconAlignment := undefined; iconIndex := undefined;
              indicateVertices := undefined; lineColor := undefined;
              lineWidth := undefined; text := undefined;
              textColor := undefined |})
  = None.
Proof.
  apply (proj1 (setOptions_null bool unit _ _)). reflexivity.
Defined.

End OutlineTagFacts.
